(** * VoxelBotUtils: settings cache, startup hydration and config reload

    A shallow embedding of [voxelbotutils/cogs/utils/custom_bot.py]
    (class [CustomBot]): the two [defaultdict] settings caches, the
    [_startup] / [startup] hydration sequence, [reload_config] and the
    [owner_ids] property.

    Python objects that are shared by reference (the per-entity settings
    dictionaries handed out by the caches) live in an explicit heap and are
    named by their location; exceptions, [exit] and a wait that never returns
    are outcomes of a small state monad. *)

From Stdlib Require Import ZArith List Permutation.
From stdpp Require Import base option list gmap strings fin_maps pretty.

Open Scope Z_scope.
Open Scope string_scope.
Open Scope list_scope.

(** ** Values *)

(** What a TOML file or a database column holds. Values are immutable trees
    in this model; only dictionaries handed out by the caches have identity
    (see [heap] below). *)
#[warnings="-register-all"]
Inductive value : Type :=
| VNone
| VBool (b : bool)
| VInt (z : Z)
| VStr (s : string)
| VList (l : list value).

Abbreviation dict := (gmap string value).

(** [copy.deepcopy]: atoms are returned as they are, containers are rebuilt
    element by element. *)
Fixpoint deepcopy (v : value) : value :=
  match v with
  | VList l => VList (List.map deepcopy l)
  | _ => v
  end.

Definition deepcopy_dict (d : dict) : dict := deepcopy <$> d.

(** ** Outcomes and the state monad *)

Inductive exn : Type :=
| KeyError (key : string)
| IndexError
| TypeError (what : string)
| DatabaseError (msg : string)
| FileNotFoundError (path : string)
| TomlDecodeError (msg : string)
| ExtensionError (msg : string).

(** [str(e)] as it is interpolated in the log lines. *)
Definition exn_str (e : exn) : string :=
  match e with
  | KeyError k => "'" +:+ k +:+ "'"
  | IndexError => "list index out of range"
  | TypeError s => s
  | DatabaseError s => s
  | FileNotFoundError p => "No such file or directory: " +:+ p
  | TomlDecodeError s => s
  | ExtensionError s => s
  end.

(** How a piece of code ends: it returns, it raises an [Exception], the
    process exits ([exit(n)] raises [SystemExit], which [except Exception]
    does not catch), or it awaits something that never happens. *)
Inductive outcome (A : Type) : Type :=
| Ok (a : A)
| Raise (e : exn)
| SystemExit (code : Z)
| Blocked.
Arguments Ok {A} a.
Arguments Raise {A} e.
Arguments SystemExit {A} code.
Arguments Blocked {A}.

Definition St (S A : Type) : Type := S → outcome A * S.

Definition St_ret {S A} (a : A) : St S A := λ s, (Ok a, s).

Definition St_bind {S A B} (k : A → St S B) (m : St S A) : St S B :=
  λ s, match m s with
       | (Ok a, s') => k a s'
       | (Raise e, s') => (Raise e, s')
       | (SystemExit c, s') => (SystemExit c, s')
       | (Blocked, s') => (Blocked, s')
       end.

#[global] Instance St_mret {S} : MRet (St S) := @St_ret S.
#[global] Instance St_mbind {S} : MBind (St S) := @St_bind S.

Definition raise {S A} (e : exn) : St S A := λ s, (Raise e, s).

(** [exit(code)] *)
Definition exit {S A} (code : Z) : St S A := λ s, (SystemExit code, s).

(** [try: m  except Exception as e: h e] *)
Definition try_except {S A} (m : St S A) (h : exn → St S A) : St S A :=
  λ s, match m s with
       | (Raise e, s') => h e s'
       | r => r
       end.

(** [for x in xs: body x] *)
Fixpoint for_each {S A} (xs : list A) (body : A → St S unit) : St S unit :=
  match xs with
  | [] => mret tt
  | x :: xs' => body x ;; for_each xs' body
  end.

(** [modify f]: a state change that cannot fail. *)
Definition modify {S} (f : S → S) : St S unit := λ s, (Ok tt, f s).

(** ** The bot's in-memory state *)

Inductive table_kind : Type := Guild | User.

Definition table_name (t : table_kind) : string :=
  match t with Guild => "guild_settings" | User => "user_settings" end.

Definition id_column (t : table_kind) : string :=
  match t with Guild => "guild_id" | User => "user_id" end.

(** The attributes of [CustomBot] that the settings subsystem reads and
    writes. [heap] holds the dictionaries created by the caches' default
    factory; a cache maps an entity ID to the location of its dictionary. *)
Record bot : Type := Bot {
  config : option dict;
  config_file : string;
  DEFAULT_GUILD_SETTINGS : dict;
  DEFAULT_USER_SETTINGS : dict;
  heap : list dict;
  guild_settings : gmap Z nat;
  user_settings : gmap Z nat;
}.

Definition DEFAULT (t : table_kind) (b : bot) : dict :=
  match t with
  | Guild => DEFAULT_GUILD_SETTINGS b
  | User => DEFAULT_USER_SETTINGS b
  end.

Definition cache (t : table_kind) (b : bot) : gmap Z nat :=
  match t with
  | Guild => guild_settings b
  | User => user_settings b
  end.

Definition set_config (c : option dict) (b : bot) : bot :=
  Bot c (config_file b) (DEFAULT_GUILD_SETTINGS b) (DEFAULT_USER_SETTINGS b) (heap b)
      (guild_settings b) (user_settings b).

Definition set_DEFAULT (t : table_kind) (d : dict) (b : bot) : bot :=
  match t with
  | Guild => Bot (config b) (config_file b) d (DEFAULT_USER_SETTINGS b) (heap b)
                 (guild_settings b) (user_settings b)
  | User => Bot (config b) (config_file b) (DEFAULT_GUILD_SETTINGS b) d (heap b)
                (guild_settings b) (user_settings b)
  end.

Definition set_heap (h : list dict) (b : bot) : bot :=
  Bot (config b) (config_file b) (DEFAULT_GUILD_SETTINGS b) (DEFAULT_USER_SETTINGS b) h
      (guild_settings b) (user_settings b).

Definition set_cache (t : table_kind) (c : gmap Z nat) (b : bot) : bot :=
  match t with
  | Guild => Bot (config b) (config_file b) (DEFAULT_GUILD_SETTINGS b) (DEFAULT_USER_SETTINGS b)
                 (heap b) c (user_settings b)
  | User => Bot (config b) (config_file b) (DEFAULT_GUILD_SETTINGS b) (DEFAULT_USER_SETTINGS b)
                (heap b) (guild_settings b) c
  end.

(** ** The settings caches (lines 127-128)

    [collections.defaultdict(lambda: copy.deepcopy(self.DEFAULT_..._SETTINGS))] *)

(** The default factory: a new dictionary object holding a deep copy of the
    Default mapping as it is now. *)
Definition default_factory (t : table_kind) : St bot nat :=
  λ b, (Ok (length (heap b)),
        set_heap (heap b ++ [deepcopy_dict (DEFAULT t b)]) b).

(** [self.guild_settings[i]] / [self.user_settings[i]]: [__getitem__], with
    [__missing__] calling the factory and storing what it returns. *)
Definition cache_getitem (t : table_kind) (i : Z) : St bot nat :=
  λ b, match cache t b !! i with
       | Some l => (Ok l, b)
       | None =>
           (l ← default_factory t;
            modify (λ b', set_cache t (<[i := l]> (cache t b')) b');;
            mret l) b
       end.

(** [d[key] = value] on the dictionary object at [l]. *)
Definition dict_setitem (l : nat) (key : string) (v : value) : St bot unit :=
  modify (λ b, set_heap (alter (<[key := v]>) l (heap b)) b).

(** [self.guild_settings.clear()] *)
Definition cache_clear (t : table_kind) : St bot unit :=
  modify (set_cache t ∅).

(** [d.setdefault(key, v)] *)
Definition setdefault (key : string) (v : value) (d : dict) : dict :=
  match d !! key with
  | Some _ => d
  | None => <[key := v]> d
  end.

(** Lines 158-159 and 171-172:
    [for i, o in row.items(): self.DEFAULT_..._SETTINGS.setdefault(i, o)] *)
Definition hydrate_defaults (t : table_kind) (row : dict) : St bot unit :=
  for_each (map_to_list row) (λ '(i, o),
    modify (λ b, set_DEFAULT t (setdefault i o (DEFAULT t b)) b)).

(** [row[key]] *)
Definition row_getitem {S} (row : dict) (key : string) : St S value :=
  match row !! key with
  | Some v => mret v
  | None => raise (KeyError key)
  end.

(** The ID column is the table's integer primary key, and the caches are
    keyed by integers here: a row whose ID is not an integer is outside the
    schema and is rejected. *)
Definition as_entity_id {S} (v : value) : St S Z :=
  match v with
  | VInt i => mret i
  | _ => raise (TypeError "entity id is not an integer")
  end.

(** Line 165, one iteration of the inner loop:
    [self.guild_settings[row['guild_id']][key] = value] *)
Definition hydrate_item (t : table_kind) (row : dict) (item : string * value)
  : St bot unit :=
  let '(key, v) := item in
  idv ← row_getitem row (id_column t);
  i ← as_entity_id idv;
  l ← cache_getitem t i;
  dict_setitem l key v.

(** Lines 163-165 and 176-178:
    [for row in data:
       for key, value in row.items():
         self.guild_settings[row['guild_id']][key] = value] *)
Definition hydrate_row (t : table_kind) (row : dict) : St bot unit :=
  for_each (map_to_list row) (hydrate_item t row).

Definition hydrate_entities (t : table_kind) (data : list dict) : St bot unit :=
  for_each data (hydrate_row t).

(** A bot object before [__init__] has run. *)
Definition empty_bot : bot := Bot None "config/config.toml" ∅ ∅ [] ∅ ∅.

(** [self.config[key]] *)
Definition config_getitem (key : string) : St bot value :=
  λ b, match config b with
       | Some c => row_getitem c key b
       | None => (Raise (TypeError "'NoneType' object is not subscriptable"), b)
       end.

(** ** [owner_ids] (lines 384-390) *)

(** The property: [return self.config['owners']] *)
Definition owner_ids : St bot value := config_getitem "owners".

(** The setter: [pass] *)
Definition set_owner_ids (v : value) : St bot unit := mret tt.

(** ** The world around the bot *)

Inductive level : Type := DEBUG | INFO | WARNING | ERROR | CRITICAL.

(** The three statements [_startup] sends, per table. *)
Inductive sql : Type :=
| SelectSentinel (t : table_kind)
| InsertSentinel (t : table_kind)
| SelectAll (t : table_kind).

(** The text of each statement, as the source writes it. *)
Definition sql_text (q : sql) : string :=
  match q with
  | SelectSentinel t =>
      "SELECT * FROM " +:+ table_name t +:+ " WHERE " +:+ id_column t +:+ "=0"
  | InsertSentinel t =>
      "INSERT INTO " +:+ table_name t +:+ " (" +:+ id_column t +:+ ") VALUES (0) RETURNING *"
  | SelectAll t => "SELECT * FROM " +:+ table_name t
  end.

(** What a run does, in the order it does it: the configuration file
    opened, a cache cleared, the connection acquired and released, a
    statement sent, the start of the default-row loop and of the row loop of
    a table, the call of an extension's [cache_setup], the wait for
    readiness. Log entries are kept apart, in [log]. *)
Inductive event : Type :=
| EOpen (path : string)
| EClear (t : table_kind)
| EConnect
| EQuery (q : sql)
| EHydrateDefaults (t : table_kind)
| EHydrateEntities (t : table_kind)
| ECacheSetup (cog_name : string)
| EWaitReady
| EDisconnect.

(** Modelled from the spec: the Persistent Store Accessor
    ([DatabaseConnection], module [.database], and the relational store
    behind it). The two tables are lists of rows, each row a mapping from
    column name to value; [*_column_defaults] are the column defaults an
    insert-with-defaults fills in. [script] decides which of the coming
    statements raise ([Some msg]) and [connect_error] whether acquiring a
    connection raises; [open_connections] counts connections acquired and
    not yet released, [errors_raised] the errors the accessor has raised. *)
Record database : Type := Database {
  guild_table : list dict;
  user_table : list dict;
  guild_column_defaults : dict;
  user_column_defaults : dict;
  script : list (option string);
  connect_error : option string;
  open_connections : nat;
  errors_raised : nat;
}.

Definition table (t : table_kind) (d : database) : list dict :=
  match t with Guild => guild_table d | User => user_table d end.

Definition column_defaults (t : table_kind) (d : database) : dict :=
  match t with Guild => guild_column_defaults d | User => user_column_defaults d end.

Definition set_table (t : table_kind) (rows : list dict) (d : database) : database :=
  match t with
  | Guild => Database rows (user_table d) (guild_column_defaults d)
               (user_column_defaults d) (script d) (connect_error d)
               (open_connections d) (errors_raised d)
  | User => Database (guild_table d) rows (guild_column_defaults d)
              (user_column_defaults d) (script d) (connect_error d)
              (open_connections d) (errors_raised d)
  end.

Definition set_script (s : list (option string)) (d : database) : database :=
  Database (guild_table d) (user_table d) (guild_column_defaults d)
    (user_column_defaults d) s (connect_error d)
    (open_connections d) (errors_raised d).

Definition set_open_connections (n : nat) (d : database) : database :=
  Database (guild_table d) (user_table d) (guild_column_defaults d)
    (user_column_defaults d) (script d) (connect_error d) n (errors_raised d).

Definition count_error (d : database) : database :=
  Database (guild_table d) (user_table d) (guild_column_defaults d)
    (user_column_defaults d) (script d) (connect_error d)
    (open_connections d) (S (errors_raised d)).

(** Modelled from the spec: [WHERE guild_id=0] / [WHERE user_id=0], the
    row with key value 0. *)
Definition is_sentinel (t : table_kind) (row : dict) : bool :=
  match row !! id_column t with
  | Some (VInt 0) => true
  | _ => false
  end.

(** Modelled from the spec: what the store answers to each statement.
    The sentinel select returns the rows with ID 0; the insert adds a row
    with ID 0 and the column defaults and returns it; the bulk select has
    no [WHERE] clause and returns every row of the table. *)
Definition run_sql (q : sql) (d : database) : list dict * database :=
  match q with
  | SelectSentinel t => (filter (λ r, is_sentinel t r = true) (table t d), d)
  | InsertSentinel t =>
      let r := <[id_column t := VInt 0]> (column_defaults t d) in
      ([r], set_table t (table t d ++ [r]) d)
  | SelectAll t => (table t d, d)
  end.

Record world : Type := World {
  self : bot;
  store : database;
  files : gmap string string;
  log : list (level * string);
  trace : list event;
  platform_ready : bool;
}.

Definition on_self (f : bot → bot) (w : world) : world :=
  World (f (self w)) (store w) (files w) (log w) (trace w) (platform_ready w).

Definition on_store (f : database → database) (w : world) : world :=
  World (self w) (f (store w)) (files w) (log w) (trace w) (platform_ready w).

Definition add_log (entry : level * string) (w : world) : world :=
  World (self w) (store w) (files w) (log w ++ [entry]) (trace w) (platform_ready w).

Definition add_event (e : event) (w : world) : world :=
  World (self w) (store w) (files w) (log w) (trace w ++ [e]) (platform_ready w).

(** Code that only touches the bot's attributes, run in the world. *)
Definition lift_self {A} (m : St bot A) : St world A :=
  λ w, let '(o, b) := m (self w) in (o, on_self (λ _, b) w).

(** Reading an attribute of the bot. *)
Definition read_self {A} (f : bot → A) : St world A :=
  λ w, (Ok (f (self w)), w).

(** [self.logger.<level>(msg)] *)
Definition logger (lvl : level) (msg : string) : St world unit :=
  modify (add_log (lvl, msg)).

Definition emit (e : event) : St world unit := modify (add_event e).

(** Modelled from the spec: [await self.database.get_connection()]. *)
Definition get_connection : St world unit :=
  emit EConnect;;
  ((λ w, match connect_error (store w) with
         | Some msg => (Raise (DatabaseError msg), on_store count_error w)
         | None =>
             (Ok tt,
              on_store (λ d, set_open_connections (S (open_connections d)) d) w)
         end) : St world unit).

(** Modelled from the spec: [await db(sql)], parameterized query execution;
    the statement either raises or is answered by [run_sql]. *)
Definition db_call (q : sql) : St world (list dict) :=
  emit (EQuery q);;
  ((λ w, match script (store w) with
         | Some msg :: rest =>
             (Raise (DatabaseError msg),
              on_store (λ d, count_error (set_script rest d)) w)
         | None :: rest =>
             let '(rows, d) := run_sql q (set_script rest (store w)) in
             (Ok rows, on_store (λ _, d) w)
         | [] =>
             let '(rows, d) := run_sql q (store w) in
             (Ok rows, on_store (λ _, d) w)
         end) : St world (list dict)).

(** Modelled from the spec: [await db.disconnect()]. *)
Definition disconnect : St world unit :=
  emit EDisconnect;;
  modify (on_store (λ d, set_open_connections (pred (open_connections d)) d)).

(** [await self.wait_until_ready()]: returns once the platform session is
    ready, and never returns if it never is. *)
Definition wait_until_ready : St world unit :=
  emit EWaitReady;;
  ((λ w, if platform_ready w then (Ok tt, w) else (Blocked, w)) : St world unit).

(** ** Startup (lines 130-205) *)

(** [_run_sql_exit_on_error] *)
Definition _run_sql_exit_on_error (q : sql) : St world (list dict) :=
  try_except (db_call q)
    (λ e, logger CRITICAL ("Error selecting from table - " +:+ exn_str e);;
          exit 1).

(** [_get_all_table_data]: ["SELECT * FROM {0}".format(table_name)] *)
Definition _get_all_table_data (t : table_kind) : St world (list dict) :=
  _run_sql_exit_on_error (SelectAll t).

(** [rows[0]] *)
Definition first_row {S} (rows : list dict) : St S dict :=
  match rows with
  | r :: _ => mret r
  | [] => raise IndexError
  end.

(** Lines 154-165 for [Guild], lines 167-178 for [User]: the default row,
    then every row of the table. *)
Definition load_settings (t : table_kind) : St world unit :=
  default_settings ← db_call (SelectSentinel t);
  default_settings ←
    (if bool_decide (default_settings = [])
     then db_call (InsertSentinel t)
     else mret default_settings);
  row0 ← first_row default_settings;
  emit (EHydrateDefaults t);;
  lift_self (hydrate_defaults t row0);;
  data ← _get_all_table_data t;
  emit (EHydrateEntities t);;
  lift_self (hydrate_entities t data).

(** An extension: its name and its [cache_setup] coroutine, if it has one.
    A [cache_setup] is arbitrary code over the bot's attributes. *)
Definition cog : Type := string * option (St bot unit).

Definition fake_cache_setup_method : St bot unit := mret tt.

(** Lines 183-184:
    [for cog_name, cog in self.cogs.items():
       await getattr(cog, "cache_setup", fake_cache_setup_method)(db)] *)
Definition run_cache_setup (cogs : list cog) : St world unit :=
  for_each cogs (λ '(cog_name, cache_setup),
    emit (ECacheSetup cog_name);;
    lift_self (default fake_cache_setup_method cache_setup)).

Definition _startup (cogs : list cog) : St world unit :=
  logger DEBUG "Clearing caches";;
  emit (EClear Guild);;
  lift_self (cache_clear Guild);;
  emit (EClear User);;
  lift_self (cache_clear User);;
  get_connection;;
  load_settings Guild;;
  load_settings User;;
  run_cache_setup cogs;;
  logger DEBUG "Waiting until ready before completing startup method.";;
  wait_until_ready;;
  disconnect.

Definition startup (cogs : list cog) : St world unit :=
  try_except (_startup cogs)
    (λ e, logger ERROR (exn_str e);; exit 1).

(** ** Config loader and construction *)

Section ConfigLoader.
(** [toml.load]: from the text of the file to the mapping it denotes, or
    the exception the parser raises. *)
Variable toml_load : string → exn + dict.

(** [with open(self.config_file) as a: toml.load(a)] *)
Definition read_config_file (path : string) : St world dict :=
  emit (EOpen path);;
  ((λ w, match files w !! path with
         | None => (Raise (FileNotFoundError path), w)
         | Some text =>
             match toml_load text with
             | inl e => (Raise e, w)
             | inr c => (Ok c, w)
             end
         end) : St world dict).

(** What reading and parsing the bot's configuration file yields. *)
Definition parsed_config (w : world) : exn + dict :=
  match files w !! config_file (self w) with
  | None => inl (FileNotFoundError (config_file (self w)))
  | Some text => toml_load text
  end.

(** [reload_config] (lines 494-505) *)
Definition reload_config : St world unit :=
  logger INFO "Reloading config";;
  try_except
    (path ← read_self config_file;
     c ← read_config_file path;
     lift_self (modify (set_config (Some c))))
    (λ e, logger CRITICAL ("Couldn't read config file - " +:+ exn_str e);;
          exit 1).

(** [__init__], the part that sets up configuration and settings
    (lines 77-80, 95-99, 127-128). *)
Definition __init__ (config_file : string) : St world unit :=
  lift_self (modify (λ b,
    Bot None config_file (DEFAULT_GUILD_SETTINGS b) (DEFAULT_USER_SETTINGS b)
        (heap b) (guild_settings b) (user_settings b)));;
  reload_config;;
  default_prefix ← lift_self (config_getitem "default_prefix");
  lift_self (modify (set_DEFAULT Guild {[ "prefix" := default_prefix ]}));;
  lift_self (modify (set_DEFAULT User ∅));;
  lift_self (modify (set_cache Guild ∅));;
  lift_self (modify (set_cache User ∅)).
End ConfigLoader.

(** Running a computation: its outcome and the state it leaves. *)
Definition result {S A} (m : St S A) (s : S) : outcome A := fst (m s).
Definition final {S A} (m : St S A) (s : S) : S := snd (m s).

(** How many entries of a log are at a given level. *)
Definition is_level (lvl : level) (entry : level * string) : bool :=
  match lvl, fst entry with
  | DEBUG, DEBUG | INFO, INFO | WARNING, WARNING
  | ERROR, ERROR | CRITICAL, CRITICAL => true
  | _, _ => false
  end.

Definition count_level (lvl : level) (l : list (level * string)) : nat :=
  length (List.filter (is_level lvl) l).

(** The dictionary a cache holds for an entity, if any. *)
Definition entry (t : table_kind) (i : Z) (b : bot) : option dict :=
  l ← cache t b !! i; heap b !! l.

(** ** How a run of the startup sequence can end

    The ways [load_settings] and [_startup] can stop, with what each leaves
    behind: the events it performed, the log entries it wrote and the
    database errors it met. *)

Inductive load_end : Type :=
| SentinelSelectFailed (msg : string)
| SentinelInsertFailed (msg : string)
| BulkSelectFailed (inserted : bool) (msg : string)
| EntitiesStopped (inserted : bool) (o : outcome unit)
| Loaded (inserted : bool).

Definition sentinel_events (t : table_kind) (inserted : bool) : list event :=
  EQuery (SelectSentinel t)
    :: (if inserted then [EQuery (InsertSentinel t)] else []).

(** The events of a complete pass over one table. *)
Definition table_events (t : table_kind) (inserted : bool) : list event :=
  sentinel_events t inserted
    ++ [EHydrateDefaults t; EQuery (SelectAll t); EHydrateEntities t].

Definition load_trace (t : table_kind) (e : load_end) : list event :=
  match e with
  | SentinelSelectFailed _ => sentinel_events t false
  | SentinelInsertFailed _ => sentinel_events t true
  | BulkSelectFailed inserted _ =>
      sentinel_events t inserted ++ [EHydrateDefaults t; EQuery (SelectAll t)]
  | EntitiesStopped inserted _ => table_events t inserted
  | Loaded inserted => table_events t inserted
  end.

Definition load_outcome (e : load_end) : outcome unit :=
  match e with
  | SentinelSelectFailed msg => Raise (DatabaseError msg)
  | SentinelInsertFailed msg => Raise (DatabaseError msg)
  | BulkSelectFailed _ _ => SystemExit 1
  | EntitiesStopped _ o => o
  | Loaded _ => Ok tt
  end.

Definition load_log (e : load_end) : list (level * string) :=
  match e with
  | BulkSelectFailed _ msg => [(CRITICAL, "Error selecting from table - " +:+ msg)]
  | _ => []
  end.

Definition load_errors (e : load_end) : nat :=
  match e with
  | SentinelSelectFailed _ | SentinelInsertFailed _ | BulkSelectFailed _ _ => 1
  | EntitiesStopped _ _ | Loaded _ => 0
  end.

Definition is_ok {A} (o : outcome A) : bool :=
  match o with Ok _ => true | _ => false end.

(** An end that is not the successful one. *)
Definition load_stopped (e : load_end) : bool :=
  match e with
  | Loaded _ => false
  | EntitiesStopped _ o => negb (is_ok o)
  | _ => true
  end.

(** What an observer sees between two states of the world: the events and
    log entries added, the database errors raised, and how many connections
    were acquired and released. *)
Definition observed (w w' : world) (tr : list event)
    (lg : list (level * string)) (errs acquired released : nat) : Prop :=
  trace w' = trace w ++ tr ∧
  log w' = log w ++ lg ∧
  errors_raised (store w') = (errors_raised (store w) + errs)%nat ∧
  (open_connections (store w') + released
   = open_connections (store w) + acquired)%nat ∧
  platform_ready w' = platform_ready w.

Inductive startup_end : Type :=
| ConnectFailed (msg : string)
| GuildStopped (e : load_end)
| UserStopped (inserted_g : bool) (e : load_end)
| SetupStopped (inserted_g inserted_u : bool) (n : nat) (o : outcome unit)
| NeverReady (inserted_g inserted_u : bool)
| Completed (inserted_g inserted_u : bool).

Definition cog_events (cogs : list cog) : list event :=
  (λ c : cog, ECacheSetup (fst c)) <$> cogs.

Definition opening_events : list event := [EClear Guild; EClear User; EConnect].

(** The events of a complete run of [_startup], in order. *)
Definition startup_events (inserted_g inserted_u : bool) (cogs : list cog)
  : list event :=
  opening_events
    ++ table_events Guild inserted_g
    ++ table_events User inserted_u
    ++ cog_events cogs
    ++ [EWaitReady; EDisconnect].

Definition startup_trace (cogs : list cog) (e : startup_end) : list event :=
  match e with
  | ConnectFailed _ => opening_events
  | GuildStopped e => opening_events ++ load_trace Guild e
  | UserStopped g e => opening_events ++ table_events Guild g ++ load_trace User e
  | SetupStopped g u n _ =>
      opening_events ++ table_events Guild g ++ table_events User u
        ++ cog_events (take (S n) cogs)
  | NeverReady g u =>
      opening_events ++ table_events Guild g ++ table_events User u
        ++ cog_events cogs ++ [EWaitReady]
  | Completed g u => startup_events g u cogs
  end.

Definition startup_outcome (e : startup_end) : outcome unit :=
  match e with
  | ConnectFailed msg => Raise (DatabaseError msg)
  | GuildStopped e => load_outcome e
  | UserStopped _ e => load_outcome e
  | SetupStopped _ _ _ o => o
  | NeverReady _ _ => Blocked
  | Completed _ _ => Ok tt
  end.

Definition startup_log (e : startup_end) : list (level * string) :=
  (DEBUG, "Clearing caches") ::
  match e with
  | ConnectFailed _ => []
  | GuildStopped e => load_log e
  | UserStopped _ e => load_log e
  | SetupStopped _ _ _ _ => []
  | NeverReady _ _ | Completed _ _ =>
      [(DEBUG, "Waiting until ready before completing startup method.")]
  end.

Definition startup_errors (e : startup_end) : nat :=
  match e with
  | ConnectFailed _ => 1
  | GuildStopped e => load_errors e
  | UserStopped _ e => load_errors e
  | _ => 0
  end.

Definition startup_acquired (e : startup_end) : nat :=
  match e with ConnectFailed _ => 0 | _ => 1 end.

Definition startup_released (e : startup_end) : nat :=
  match e with Completed _ _ => 1 | _ => 0 end.

(** The ends that can really occur for a given list of extensions. *)
Definition startup_end_wf (cogs : list cog) (e : startup_end) : Prop :=
  match e with
  | GuildStopped e => load_stopped e = true
  | UserStopped _ e => load_stopped e = true
  | SetupStopped _ _ n o => (n < length cogs)%nat ∧ is_ok o = false
  | _ => True
  end.

(** What [startup] makes of the way [_startup] ended: an exception is
    logged at error level and turned into [exit(1)]. *)
Definition handled_outcome (o : outcome unit) : outcome unit :=
  match o with
  | Raise _ => SystemExit 1
  | o => o
  end.

Definition handler_log (o : outcome unit) : list (level * string) :=
  match o with
  | Raise e => [(ERROR, exn_str e)]
  | _ => []
  end.

(** ** Auxiliary definitions for the statements below *)

(** The event at which a database error can strike, and the level at which
    it is then logged. *)
Definition logged_at (failing : event) (lvl : level) : Prop :=
  (∃ t, failing = EQuery (SelectAll t)) ∧ lvl = CRITICAL
  ∨ (failing = EConnect
     ∨ ∃ t, failing = EQuery (SelectSentinel t)
            ∨ failing = EQuery (InsertSentinel t)) ∧ lvl = ERROR.


(** What the [setdefault] loop computes on the Default mapping. *)
Definition setdefault_all (items : list (string * value)) (d : dict) : dict :=
  foldl (λ acc '(k, v), setdefault k v acc) d items.

(** What the item loop of one row does to the dictionary it writes to. *)
Definition insert_all (items : list (string * value)) (d : dict) : dict :=
  foldl (λ acc '(k, v), <[k := v]> acc) d items.

(** Lines 158-165 and 171-178, what [load_settings] does once it holds
    the default row. *)
Definition hydrate_from (t : table_kind) (row0 : dict) : St world unit :=
  emit (EHydrateDefaults t);;
  lift_self (hydrate_defaults t row0);;
  data ← _get_all_table_data t;
  emit (EHydrateEntities t);;
  lift_self (hydrate_entities t data).

(** Every entity ID a cache holds in [b] it still holds in [b']. *)
Definition keeps_keys (b b' : bot) : Prop :=
  ∀ t i, is_Some (cache t b !! i) → is_Some (cache t b' !! i).

(** ** Sample states *)

Definition bot_with_prefix (p : string) : bot :=
  set_DEFAULT Guild {[ "prefix" := VStr p ]} empty_bot.

(** The table of the two-row scenario. *)
Definition row_0 : dict := {[ "guild_id" := VInt 0; "prefix" := VStr "!" ]}.
Definition row_42 : dict := {[ "guild_id" := VInt 42; "prefix" := VStr "?" ]}.

(** A world in which nothing has run yet: the bot is not constructed, the
    configuration file holds [text], the guild table holds [guild_rows], the
    user table is empty, the platform will become ready, and the coming
    database statements behave as [script] says. *)
Definition fresh_world (guild_rows : list dict) (text : string)
    (script : list (option string)) : world :=
  World empty_bot
    (Database guild_rows [] ∅ ∅ script None 0 0)
    {[ "config/config.toml" := text ]} [] [] true.

(** A parser that knows one file: it reads [default_prefix = '$'] and
    [owners = [1]], and rejects everything else. *)
Definition toy_toml (text : string) : exn + dict :=
  if String.eqb text "default_prefix = '$'"
  then inr {[ "default_prefix" := VStr "$"; "owners" := VList [VInt 1] ]}
  else inl (TomlDecodeError "invalid TOML").

(** The bot constructed from that file, in the two-row scenario. *)
Definition dollar_world (script : list (option string)) : world :=
  final (__init__ toy_toml "config/config.toml")
    (fresh_world [row_0; row_42] "default_prefix = '$'" script).

(** ** Assertions about runs *)

(** [triple P m Q F]: from a state where [P] holds, if [m] returns [a] then
    [Q a] holds of the state it leaves, and if it ends any other way then [F]
    holds of the state it leaves. *)
Definition triple {S A} (P : S → Prop) (m : St S A)
    (Q : A → S → Prop) (F : S → Prop) : Prop :=
  ∀ s, P s →
    match m s with
    | (Ok a, s') => Q a s'
    | (_, s') => F s'
    end.

(** [P] holds after [m] whenever it held before, however [m] ends. *)
Definition preserves {S A} (P : S → Prop) (m : St S A) : Prop :=
  triple P m (λ _, P) P.

(** Every entry of either cache names a dictionary that exists, and no two
    entries name the same one. *)
Definition wf_bot (b : bot) : Prop :=
  (∀ t i l, cache t b !! i = Some l → (l < length (heap b))%nat) ∧
  (∀ t t' i j l,
     cache t b !! i = Some l → cache t' b !! j = Some l → t = t' ∧ i = j).

(** Every dictionary a cache holds has all the keys of the Default mapping. *)
Definition covers (t : table_kind) (b : bot) : Prop :=
  ∀ i l, cache t b !! i = Some l →
    ∃ d, heap b !! l = Some d ∧ dom (DEFAULT t b) ⊆ dom d.

(** The dictionaries of a cache, by entity ID. *)
Definition entries (t : table_kind) (b : bot) : gmap Z dict :=
  omap (λ l, heap b !! l) (cache t b).

(** [self.guild_settings[i][key] = v] / [self.user_settings[i][key] = v] *)
Definition settings_setitem (t : table_kind) (i : Z) (key : string) (v : value)
  : St bot unit :=
  l ← cache_getitem t i;
  dict_setitem l key v.

(** What the row loop amounts to on the dictionaries themselves: a row with
    an integer ID is laid over the entity's dictionary, or over the Default
    mapping when the entity has none; a row without one changes nothing. *)
Definition hydrate_step (t : table_kind) (D : dict) (m : gmap Z dict) (r : dict)
  : gmap Z dict :=
  match r !! id_column t with
  | Some (VInt i) => <[i := r ∪ default D (m !! i)]> m
  | _ => m
  end.

Definition hydrated (t : table_kind) (D : dict) (rows : list dict)
    (m : gmap Z dict) : gmap Z dict :=
  foldl (hydrate_step t D) m rows.

#[global] Instance table_kind_eq_dec : EqDecision table_kind.
Proof. solve_decision. Defined.

(** Whether a row carries the integer ID [i]. *)
Definition has_id (t : table_kind) (i : Z) (r : dict) : bool :=
  match r !! id_column t with
  | Some (VInt j) => bool_decide (j = i)
  | _ => false
  end.

(** The rows of an entity, in the order of the table. *)
Definition rows_with_id (t : table_kind) (i : Z) (rows : list dict) : list dict :=
  filter (λ r, has_id t i r = true) rows.

(** A row laid over a dictionary, or over the Default mapping [D] when
    there is none. *)
Definition lay_row (D : dict) (o : option dict) (r : dict) : option dict :=
  Some (r ∪ default D o).

(** Code that leaves the settings alone: the dictionaries, both caches and
    both Default mappings are after it what they were before. *)
Definition keeps_settings (m : St bot unit) : Prop :=
  ∀ b, heap (snd (m b)) = heap b ∧
       (∀ t, cache t (snd (m b)) = cache t b) ∧
       (∀ t, DEFAULT t (snd (m b)) = DEFAULT t b).

(** Every ID a cache holds is the ID of a row of its table. *)
Definition cached_from_table (t : table_kind) (w : world) : Prop :=
  ∀ i, is_Some (cache t (self w) !! i) →
    ∃ r, r ∈ table t (store w) ∧ r !! id_column t = Some (VInt i).

(** The ID of every row of a table is held by its cache. *)
Definition table_cached (t : table_kind) (w : world) : Prop :=
  ∀ r i, r ∈ table t (store w) → r !! id_column t = Some (VInt i) →
    is_Some (cache t (self w) !! i).

(** The table a statement is about. *)
Definition sql_table (q : sql) : table_kind :=
  match q with SelectSentinel t | InsertSentinel t | SelectAll t => t end.


Definition loaded_so_far (t : table_kind) (R : world → Prop) (w : world) : Prop :=
  covers t (self w) ∧ cached_from_table t w ∧ R w.

Definition loaded (t : table_kind) (R : world → Prop) (w : world) : Prop :=
  loaded_so_far t R w ∧ table_cached t w.

(** An assertion about the world that only looks at the settings (the
    dictionaries, the caches, the Default mappings) and at the tables. *)
Definition settings_pred (I : world → Prop) : Prop :=
  ∀ w w',
    heap (self w') = heap (self w) →
    (∀ t, cache t (self w') = cache t (self w)) →
    (∀ t, DEFAULT t (self w') = DEFAULT t (self w)) →
    (∀ t, table t (store w') = table t (store w)) →
    I w → I w'.



(** [getattr(cog, "cache_setup", fake_cache_setup_method)] *)
Definition cache_setup_of (c : cog) : St bot unit :=
  default fake_cache_setup_method (snd c).

(** The steps that touch neither the settings nor the tables. *)
Definition same_view {A} (m : St world A) : Prop :=
  ∀ w, self (snd (m w)) = self w ∧
       ∀ t, table t (store (snd (m w))) = table t (store w).

(** [_startup] after its first five statements (the debug line and the two
    [clear()]): lines 151-191. *)
Definition startup_tail (cogs : list cog) : St world unit :=
  get_connection;;
  load_settings Guild;;
  load_settings User;;
  run_cache_setup cogs;;
  logger DEBUG "Waiting until ready before completing startup method.";;
  wait_until_ready;;
  disconnect.

(** The world when [_startup] has cleared both caches. *)
Definition cleared (w : world) : world :=
  on_self (λ b, set_cache User ∅ (set_cache Guild ∅ b))
    (add_event (EClear User)
       (add_event (EClear Guild) (add_log (DEBUG, "Clearing caches") w))).



(** ** [get_prefix] (lines 24-50): the prefix a message is matched against *)






(** ** The client: extensions, shards and presence

    What [commands.AutoShardedBot] keeps for the methods below, beside the
    bot and its world: the files [glob.glob('cogs/[!_]*.py')] finds, the
    names of the loaded extensions, the extensions that cannot be loaded
    (with what loading them raises), the client's user, its shards, and the
    presence updates sent so far. A presence update is recorded as the
    presence table it was built from and the shard it went to ([None] for a
    call without [shard_id]). *)
Record client : Type := Client {
  bot_world : world;
  cog_files : list string;
  loaded_extensions : gset string;
  import_error : gmap string exn;
  user : string * Z;
  shard_count : option Z;
  shard_ids : option (list Z);
  presence_calls : list (value * option Z);
}.

Definition on_world (f : world → world) (c : client) : client :=
  Client (f (bot_world c)) (cog_files c) (loaded_extensions c) (import_error c)
    (user c) (shard_count c) (shard_ids c) (presence_calls c).

Definition set_loaded_extensions (e : gset string) (c : client) : client :=
  Client (bot_world c) (cog_files c) e (import_error c)
    (user c) (shard_count c) (shard_ids c) (presence_calls c).

Definition set_presence_calls (p : list (value * option Z)) (c : client)
  : client :=
  Client (bot_world c) (cog_files c) (loaded_extensions c) (import_error c)
    (user c) (shard_count c) (shard_ids c) p.

(** Code of the bot, run in the client. *)
Definition lift_world {A} (m : St world A) : St client A :=
  λ c, let '(o, w) := m (bot_world c) in (o, on_world (λ _, w) c).

(** [self.logger.<level>(msg)] *)
Definition client_logger (lvl : level) (msg : string) : St client unit :=
  lift_world (logger lvl msg).

(** [try: m  except Exception as e: h e  else: k] *)
Definition try_except_else {S A B} (m : St S A) (h : exn → St S B)
    (k : A → St S B) : St S B :=
  λ s, match m s with
       | (Ok a, s') => k a s'
       | (Raise e, s') => h e s'
       | (SystemExit c, s') => (SystemExit c, s')
       | (Blocked, s') => (Blocked, s')
       end.

(** *** [get_extensions] (lines 415-427) *)

Definition slash : Ascii.ascii := Ascii.ascii_of_nat 47.
Definition backslash : Ascii.ascii := Ascii.ascii_of_nat 92.
Definition dot : Ascii.ascii := Ascii.ascii_of_nat 46.

(** [s.replace(old, new)] for one-character [old] and [new]. *)
Fixpoint replace_char (old new : Ascii.ascii) (s : string) : string :=
  match s with
  | EmptyString => EmptyString
  | String a s' =>
      String (if Ascii.eqb a old then new else a) (replace_char old new s')
  end.

(** [s[:-n]] for a positive [n]: all but the last [n] characters, and the
    empty string when there are no more than [n]. *)
Definition drop_last (n : nat) (s : string) : string :=
  String.substring 0 (String.length s - n) s.

(** [i.replace('\\', '.').replace('/', '.')[:-3]] *)
Definition extension_name (path : string) : string :=
  drop_last 3 (replace_char slash dot (replace_char backslash dot path)).

Section Extensions.
(** [all_vfl_package_names], the names of the cogs the library ships. *)
Variable all_vfl_package_names : list string.
(** [str] of a list of strings. *)
Variable list_str : list string → string.

Definition get_extensions : St client (list string) :=
  λ c,
    let ext := cog_files c in
    let extensions :=
      map extension_name ext
      ++ map (λ i, "voxelbotutils.cogs." +:+ i) all_vfl_package_names in
    (client_logger DEBUG ("Getting all extensions: " +:+ list_str extensions);;
     mret extensions) c.

(** *** [load_all_extensions] (lines 429-453) *)

(** [self.unload_extension(name)]: an extension that is not loaded cannot be
    unloaded. *)
Definition unload_extension (name : string) : St client unit :=
  λ c, if decide (name ∈ loaded_extensions c)
       then (Ok tt, set_loaded_extensions (loaded_extensions c ∖ {[ name ]}) c)
       else (Raise (ExtensionError
                      ("Extension '" +:+ name +:+ "' has not been loaded.")), c).

(** [self.load_extension(name)]: an extension that is loaded cannot be
    loaded again; one that cannot be imported or set up raises and is not
    registered. *)
Definition load_extension (name : string) : St client unit :=
  λ c, if decide (name ∈ loaded_extensions c)
       then (Raise (ExtensionError
                      ("Extension '" +:+ name +:+ "' is already loaded.")), c)
       else match import_error c !! name with
            | Some e => (Raise e, c)
            | None =>
                (Ok tt,
                 set_loaded_extensions (loaded_extensions c ∪ {[ name ]}) c)
            end.

Definition unload_one (i : string) : St client unit :=
  try_except_else (unload_extension i)
    (λ e, client_logger DEBUG (" * " +:+ i +:+ "... failed - " +:+ exn_str e))
    (λ _, client_logger INFO (" * " +:+ i +:+ "... success")).

Definition load_one (i : string) : St client unit :=
  try_except_else (load_extension i)
    (λ e, client_logger CRITICAL
            (" * " +:+ i +:+ "... failed - " +:+ exn_str e);;
          raise e)
    (λ _, client_logger INFO (" * " +:+ i +:+ "... success")).

Definition load_all_extensions : St client unit :=
  client_logger INFO "Unloading extensions... ";;
  names ← get_extensions;
  for_each names unload_one;;
  client_logger INFO "Loading extensions... ";;
  names ← get_extensions;
  for_each names load_one.
End Extensions.

(** *** [set_default_presence] (lines 455-492) and [on_ready] (530-534) *)

Section Presence.
(** What building the activity and the status from the presence table, and
    sending them to a shard, raises, if anything. *)
Variable presence_error : value → option Z → option exn.

(** [activity = discord.Activity(...); status = getattr(...);
     await self.change_presence(activity=activity, status=status, ...)] *)
Definition change_presence (presence : value) (shard : option Z)
  : St client unit :=
  match presence_error presence shard with
  | Some e => raise e
  | None =>
      modify (λ c, set_presence_calls (presence_calls c ++ [(presence, shard)]) c)
  end.

(** [self.shard_count > 1] *)
Definition is_sharded : St client bool :=
  λ c, match shard_count c with
       | Some n => (Ok (bool_decide (1 < n)), c)
       | None =>
           (Raise (TypeError
              "'>' not supported between instances of 'NoneType' and 'int'"), c)
       end.

(** [self.shard_ids[0], self.shard_ids[-1]] *)
Definition shard_bounds : St client (Z * Z) :=
  λ c, match shard_ids c with
       | None =>
           (Raise (TypeError "'NoneType' object is not subscriptable"), c)
       | Some ids =>
           match head ids, last ids with
           | Some lo, Some hi => (Ok (lo, hi), c)
           | _, _ => (Raise IndexError, c)
           end
       end.

(** [if shard_id:] *)
Definition shard_given (shard_id : option Z) : bool :=
  match shard_id with
  | Some s => negb (Z.eqb s 0)
  | None => false
  end.

Definition set_default_presence (shard_id : option Z) : St client unit :=
  client_logger INFO "Setting default bot presence";;
  presence ← lift_world (lift_self (config_getitem "presence"));
  sharded ← is_sharded;
  if sharded : bool then
    bounds ←
      (if shard_given shard_id
       then mret (default 0 shard_id, default 0 shard_id + 1)
       else shard_bounds);
    for_each (seqZ (fst bounds) (snd bounds - fst bounds))
      (λ i, change_presence presence (Some i))
  else
    change_presence presence None.

Definition on_ready : St client unit :=
  u ← (λ c, (Ok (user c), c)) : St client (string * Z);
  client_logger INFO
    ("Bot connected - " +:+ fst u +:+ " // " +:+ pretty (snd u));;
  client_logger INFO "Setting activity to default";;
  set_default_presence None;;
  client_logger INFO "Bot loaded.".
End Presence.

(** Whether a character occurs in a string. *)
Fixpoint occurs (a : Ascii.ascii) (s : string) : bool :=
  match s with
  | EmptyString => false
  | String b s' => Ascii.eqb b a || occurs a s'
  end.

(** The path of the file [name].py of the [cogs] folder, with [sep] as the
    path separator. *)
Definition cog_file (sep : Ascii.ascii) (name : string) : string :=
  "cogs" +:+ String sep (name +:+ ".py").

(** The names [get_extensions] returns. *)
Definition found_extensions (all_vfl_package_names : list string) (c : client)
  : list string :=
  map extension_name (cog_files c)
  ++ map (λ i, "voxelbotutils.cogs." +:+ i) all_vfl_package_names.

(** Log entries written one after the other. *)
Definition add_logs (entries : list (level * string)) (w : world) : world :=
  foldl (λ w e, add_log e w) w entries.

(** A client around the bot of the two-row scenario: the [cogs] folder holds
    [files], the extensions [loaded] are loaded, those of [broken] cannot
    be, and the shards are as given. *)
Definition sample_client (files : list string) (loaded : gset string)
    (broken : gmap string exn) (count : option Z) (ids : option (list Z))
  : client :=
  Client (dollar_world []) files loaded broken ("bot#0001", 1) count ids [].

(** * Properties *)

(** ** Reasoning about runs *)

Ltac st_unfold :=
  unfold mbind, mret, St_mbind, St_mret, St_bind, St_ret, modify, raise, exit,
    try_except, result, final in *.

Lemma bind_Ok {S A B} (m : St S A) (k : A → St S B) s a s1 :
  m s = (Ok a, s1) → (m ≫= k) s = k a s1.
Proof. intros H. st_unfold. by rewrite H. Qed.

Lemma bind_Raise {S A B} (m : St S A) (k : A → St S B) s e s1 :
  m s = (Raise e, s1) → (m ≫= k) s = (Raise e, s1).
Proof. intros H. st_unfold. by rewrite H. Qed.

Lemma bind_SystemExit {S A B} (m : St S A) (k : A → St S B) s c s1 :
  m s = (SystemExit c, s1) → (m ≫= k) s = (SystemExit c, s1).
Proof. intros H. st_unfold. by rewrite H. Qed.

Lemma bind_Blocked {S A B} (m : St S A) (k : A → St S B) s s1 :
  m s = (Blocked, s1) → (m ≫= k) s = (Blocked, s1).
Proof. intros H. st_unfold. by rewrite H. Qed.

Lemma mret_run {S A} (a : A) (s : S) : (mret a : St S A) s = (Ok a, s).
Proof. reflexivity. Qed.

Lemma bind_Ok_inv {S A B} (m : St S A) (k : A → St S B) s b s' :
  (m ≫= k) s = (Ok b, s') → ∃ a s1, m s = (Ok a, s1) ∧ k a s1 = (Ok b, s').
Proof.
  st_unfold. destruct (m s) as [[a| | |] s1]; intros H; try discriminate.
  by exists a, s1.
Qed.

Lemma deepcopy_id (v : value) : deepcopy v = v.
Proof.
  revert v. fix IH 1. intros [ | b | z | s | l]; simpl; try reflexivity.
  f_equal. revert l. fix IHl 1. intros [|x l]; simpl; [reflexivity|].
  rewrite IH, IHl. reflexivity.
Qed.

Lemma deepcopy_dict_id (d : dict) : deepcopy_dict d = d.
Proof.
  apply map_eq. intros k. unfold deepcopy_dict. rewrite lookup_fmap.
  destruct (d !! k) as [v|]; simpl; [|reflexivity].
  by rewrite deepcopy_id.
Qed.

(** Getters and setters of the bot record. *)
Lemma cache_set_cache t c b : cache t (set_cache t c b) = c.
Proof. by destruct t. Qed.

Lemma cache_set_heap t h b : cache t (set_heap h b) = cache t b.
Proof. by destruct t. Qed.

Lemma heap_set_cache t c b : heap (set_cache t c b) = heap b.
Proof. by destruct t. Qed.

Lemma heap_set_heap h b : heap (set_heap h b) = h.
Proof. reflexivity. Qed.

Lemma DEFAULT_set_cache t t' c b : DEFAULT t (set_cache t' c b) = DEFAULT t b.
Proof. by destruct t, t'. Qed.

Lemma DEFAULT_set_heap t h b : DEFAULT t (set_heap h b) = DEFAULT t b.
Proof. by destruct t. Qed.

Lemma DEFAULT_set_DEFAULT t d b : DEFAULT t (set_DEFAULT t d b) = d.
Proof. by destruct t. Qed.

Lemma set_DEFAULT_twice t d d' b :
  set_DEFAULT t d (set_DEFAULT t d' b) = set_DEFAULT t d b.
Proof. by destruct t. Qed.

Lemma set_DEFAULT_same t b : set_DEFAULT t (DEFAULT t b) b = b.
Proof. by destruct t, b. Qed.

Lemma cache_set_DEFAULT t t' d b : cache t (set_DEFAULT t' d b) = cache t b.
Proof. by destruct t, t'. Qed.

Lemma heap_set_DEFAULT t d b : heap (set_DEFAULT t d b) = heap b.
Proof. by destruct t. Qed.

(** *** The caches *)

Lemma cache_getitem_present t i l b :
  cache t b !! i = Some l → cache_getitem t i b = (Ok l, b).
Proof. intros H. unfold cache_getitem. by rewrite H. Qed.

Lemma cache_getitem_absent t i b :
  cache t b !! i = None →
  cache_getitem t i b =
    (Ok (length (heap b)),
     set_cache t (<[i := length (heap b)]> (cache t b))
       (set_heap (heap b ++ [deepcopy_dict (DEFAULT t b)]) b)).
Proof.
  intros H. unfold cache_getitem. rewrite H. st_unfold. simpl.
  by rewrite cache_set_heap.
Qed.

Lemma cache_getitem_new_entry t i b :
  cache t b !! i = None →
  ∃ l b', cache_getitem t i b = (Ok l, b') ∧ heap b' !! l = Some (DEFAULT t b).
Proof.
  intros Hi. eexists _, _. split; [by apply cache_getitem_absent|].
  rewrite heap_set_cache, heap_set_heap, lookup_app_r by lia.
  by rewrite Nat.sub_diag, deepcopy_dict_id.
Qed.

(** An access never removes or moves an entry, and never touches the
    dictionaries that exist. *)
Lemma cache_getitem_frame t j b :
  ∃ l b', cache_getitem t j b = (Ok l, b') ∧
    (∀ i li, cache t b !! i = Some li → cache t b' !! i = Some li) ∧
    (∀ l0 d, heap b !! l0 = Some d → heap b' !! l0 = Some d).
Proof.
  destruct (cache t b !! j) as [l|] eqn:Hj.
  - exists l, b. split; [by apply cache_getitem_present|]. by split.
  - eexists _, _. split; [by apply cache_getitem_absent|]. split.
    + intros i li Hi. rewrite cache_set_cache.
      rewrite lookup_insert_ne; [done|]. congruence.
    + intros l0 d Hl. rewrite heap_set_cache, heap_set_heap.
      by apply lookup_app_l_Some.
Qed.

Lemma accesses_frame t js b :
  ∃ b', for_each js (λ j, cache_getitem t j;; mret tt) b = (Ok tt, b') ∧
    (∀ i li, cache t b !! i = Some li → cache t b' !! i = Some li) ∧
    (∀ l0 d, heap b !! l0 = Some d → heap b' !! l0 = Some d).
Proof.
  revert b. induction js as [|j js IH]; intros b; simpl.
  - exists b. by split.
  - destruct (cache_getitem_frame t j b) as (l & b1 & Hrun & Hc & Hh).
    destruct (IH b1) as (b2 & Hrun2 & Hc2 & Hh2).
    exists b2. split; [|split].
    + st_unfold. rewrite Hrun. simpl. exact Hrun2.
    + intros i li Hi. apply Hc2, Hc, Hi.
    + intros l0 d Hl. apply Hh2, Hh, Hl.
Qed.

(** C1. Reading a settings cache at an entity ID it does not hold returns a
    new dictionary object (its location names no object before the access)
    whose content is a deep copy of, hence equal to, the Default mapping as
    it is at that moment; the object is stored in the cache under that ID,
    the Default mapping is left as it was, and every later access with the
    same ID, whatever other accesses happen in between, returns that same
    stored object and leaves the state alone. An access always returns: no
    state makes it raise. *)
Theorem cache_getitem_materializes (t : table_kind) (i : Z) (b : bot) :
  cache t b !! i = None →
  ∃ l b',
    cache_getitem t i b = (Ok l, b') ∧
    heap b !! l = None ∧
    heap b' !! l = Some (deepcopy_dict (DEFAULT t b)) ∧
    heap b' !! l = Some (DEFAULT t b) ∧
    cache t b' = <[i := l]> (cache t b) ∧
    DEFAULT t b' = DEFAULT t b ∧
    cache_getitem t i b' = (Ok l, b') ∧
    (∀ js, ∃ b'',
        for_each js (λ j, cache_getitem t j;; mret tt) b' = (Ok tt, b'') ∧
        cache_getitem t i b'' = (Ok l, b'') ∧
        heap b'' !! l = Some (DEFAULT t b)) ∧
    (∀ j b0, ∃ l0 b1, cache_getitem t j b0 = (Ok l0, b1)).
Proof.
  intros Hi. eexists _, _. split; [by apply cache_getitem_absent|].
  assert (Hl : (heap b ++ [deepcopy_dict (DEFAULT t b)]) !! length (heap b)
               = Some (deepcopy_dict (DEFAULT t b))).
  { rewrite lookup_app_r by lia. by rewrite Nat.sub_diag. }
  assert (Hc : cache t (set_cache t (<[i:=length (heap b)]> (cache t b))
                 (set_heap (heap b ++ [deepcopy_dict (DEFAULT t b)]) b)) !! i
               = Some (length (heap b))).
  { rewrite cache_set_cache. apply lookup_insert_eq. }
  repeat split.
  - apply lookup_ge_None. lia.
  - by rewrite heap_set_cache, heap_set_heap.
  - rewrite heap_set_cache, heap_set_heap, Hl. by rewrite deepcopy_dict_id.
  - by rewrite cache_set_cache.
  - by rewrite DEFAULT_set_cache, DEFAULT_set_heap.
  - by apply cache_getitem_present.
  - intros js.
    destruct (accesses_frame t js
      (set_cache t (<[i:=length (heap b)]> (cache t b))
         (set_heap (heap b ++ [deepcopy_dict (DEFAULT t b)]) b)))
      as (b2 & Hrun & Hc2 & Hh2).
    exists b2. split; [exact Hrun|]. split.
    + apply cache_getitem_present, Hc2, Hc.
    + apply Hh2. rewrite heap_set_cache, heap_set_heap, Hl.
      by rewrite deepcopy_dict_id.
  - intros j b0. destruct (cache_getitem_frame t j b0) as (l0 & b1 & H & _).
    eauto.
Qed.

Lemma cache_getitem_materializes_witness :
  ∃ l b',
    cache_getitem Guild 7 (bot_with_prefix "!") = (Ok l, b') ∧
    heap b' !! l = Some (DEFAULT Guild (bot_with_prefix "!")) ∧
    cache_getitem Guild 7 b' = (Ok l, b').
Proof.
  destruct (cache_getitem_materializes Guild 7 (bot_with_prefix "!"))
    as (l & b' & H1 & _ & _ & H2 & _ & _ & H3 & _).
  - reflexivity.
  - exists l, b'. auto.
Defined.

(** *** Default-row hydration *)

Lemma hydrate_defaults_items t items b :
  for_each items (λ '(i, o),
      modify (λ b, set_DEFAULT t (setdefault i o (DEFAULT t b)) b)) b
  = (Ok tt, set_DEFAULT t (setdefault_all items (DEFAULT t b)) b).
Proof.
  revert b. induction items as [|[k v] items IH]; intros b; simpl.
  - by rewrite set_DEFAULT_same.
  - st_unfold. rewrite IH. by rewrite DEFAULT_set_DEFAULT, set_DEFAULT_twice.
Qed.

Lemma hydrate_defaults_run t row b :
  hydrate_defaults t row b
  = (Ok tt, set_DEFAULT t (setdefault_all (map_to_list row) (DEFAULT t b)) b).
Proof. apply hydrate_defaults_items. Qed.

Lemma setdefault_lookup_Some k v d k' old :
  d !! k' = Some old → setdefault k v d !! k' = Some old.
Proof.
  intros H. unfold setdefault. destruct (d !! k) eqn:Hk; [done|].
  rewrite lookup_insert_ne; [done|]. congruence.
Qed.

Lemma setdefault_all_keeps items d k old :
  d !! k = Some old → setdefault_all items d !! k = Some old.
Proof.
  revert d. induction items as [|[k' v'] items IH]; intros d H; simpl; [done|].
  apply IH. by apply setdefault_lookup_Some.
Qed.

Lemma setdefault_all_other items d k :
  k ∉ items.*1 → setdefault_all items d !! k = d !! k.
Proof.
  revert d. induction items as [|[k' v'] items IH]; intros d H; simpl; [done|].
  simpl in H. apply not_elem_of_cons in H as [Hne Hnotin].
  rewrite IH by done. unfold setdefault.
  destruct (d !! k'); [done|]. by rewrite lookup_insert_ne.
Qed.

Lemma setdefault_all_adds items d k v :
  NoDup items.*1 → (k, v) ∈ items → d !! k = None →
  setdefault_all items d !! k = Some v.
Proof.
  revert d. induction items as [|[k' v'] items IH]; intros d Hnd Hin Hk; simpl.
  - by apply elem_of_nil in Hin.
  - simpl in Hnd. apply NoDup_cons in Hnd as [Hk' Hnd].
    apply elem_of_cons in Hin as [Heq|Hin].
    + inversion Heq; subst k' v'.
      apply setdefault_all_keeps. unfold setdefault. rewrite Hk.
      apply lookup_insert_eq.
    + assert (k ≠ k').
      { intros ->. apply Hk'. apply list_elem_of_fmap. by exists (k', v). }
      apply IH; [done..|]. unfold setdefault.
      destruct (d !! k'); [done|]. by rewrite lookup_insert_ne.
Qed.

(** C2. After the default-row loop over a sentinel row, the Default mapping
    holds, at every key of the row, the value it held before the loop if it
    held one, and the row's value otherwise; keys outside the row are
    untouched, and the loop always completes. *)
Theorem hydrate_defaults_setdefault (t : table_kind) (row : dict) (b : bot) :
  ∃ b',
    hydrate_defaults t row b = (Ok tt, b') ∧
    (∀ k v, row !! k = Some v →
       DEFAULT t b' !! k =
         match DEFAULT t b !! k with
         | Some old => Some old
         | None => Some v
         end) ∧
    (∀ k, row !! k = None → DEFAULT t b' !! k = DEFAULT t b !! k).
Proof.
  eexists. split; [apply hydrate_defaults_run|].
  rewrite DEFAULT_set_DEFAULT. split.
  - intros k v Hk. destruct (DEFAULT t b !! k) as [old|] eqn:Hd.
    + by apply setdefault_all_keeps.
    + apply setdefault_all_adds; [|by apply elem_of_map_to_list|done].
      apply NoDup_fst_map_to_list.
  - intros k Hk. apply setdefault_all_other.
    intros Hin. apply list_elem_of_fmap in Hin as [[k' v'] [-> Hin]].
    apply elem_of_map_to_list in Hin. simpl in Hk. congruence.
Qed.

Lemma hydrate_defaults_setdefault_witness :
  ∃ b',
    hydrate_defaults Guild {[ "prefix" := VStr "!"; "lang" := VStr "en" ]}
      (bot_with_prefix "$") = (Ok tt, b') ∧
    DEFAULT Guild b' !! "prefix" = Some (VStr "$") ∧
    DEFAULT Guild b' !! "lang" = Some (VStr "en").
Proof.
  destruct (hydrate_defaults_setdefault Guild
              {[ "prefix" := VStr "!"; "lang" := VStr "en" ]}
              (bot_with_prefix "$")) as (b' & Hrun & Hin & _).
  exists b'. split; [exact Hrun|]. split.
  - rewrite (Hin "prefix" (VStr "!")); reflexivity.
  - rewrite (Hin "lang" (VStr "en")); reflexivity.
Defined.

(** *** Per-entity hydration *)

Lemma insert_all_other items d k :
  k ∉ items.*1 → insert_all items d !! k = d !! k.
Proof.
  revert d. induction items as [|[k' v'] items IH]; intros d H; simpl; [done|].
  simpl in H. apply not_elem_of_cons in H as [Hne Hnotin].
  rewrite IH by done. by rewrite lookup_insert_ne.
Qed.

Lemma insert_all_sets items d k v :
  NoDup items.*1 → (k, v) ∈ items → insert_all items d !! k = Some v.
Proof.
  revert d. induction items as [|[k' v'] items IH]; intros d Hnd Hin; simpl.
  - by apply elem_of_nil in Hin.
  - simpl in Hnd. apply NoDup_cons in Hnd as [Hk' Hnd].
    apply elem_of_cons in Hin as [Heq|Hin].
    + inversion Heq; subst k' v'.
      rewrite insert_all_other by done. apply lookup_insert_eq.
    + by apply IH.
Qed.

Lemma insert_all_union (row d : dict) :
  insert_all (map_to_list row) d = row ∪ d.
Proof.
  apply map_eq. intros k. destruct (row !! k) as [v|] eqn:Hk.
  - rewrite (lookup_union_Some_l _ _ _ _ Hk).
    apply insert_all_sets; [apply NoDup_fst_map_to_list|].
    by apply elem_of_map_to_list.
  - rewrite lookup_union_r by done. apply insert_all_other.
    intros Hin. apply list_elem_of_fmap in Hin as [[k' v'] [-> Hin]].
    apply elem_of_map_to_list in Hin. simpl in Hk. congruence.
Qed.

Lemma set_heap_twice h h' b : set_heap h (set_heap h' b) = set_heap h b.
Proof. reflexivity. Qed.

Lemma set_heap_same b : set_heap (heap b) b = b.
Proof. by destruct b. Qed.

Lemma set_heap_set_cache h t c b :
  set_heap h (set_cache t c b) = set_cache t c (set_heap h b).
Proof. by destruct t. Qed.


Lemma hydrate_item_present t row i l k v b :
  row !! id_column t = Some (VInt i) →
  cache t b !! i = Some l →
  hydrate_item t row (k, v) b
  = (Ok tt, set_heap (alter (<[k := v]>) l (heap b)) b).
Proof.
  intros Hid Hc. unfold hydrate_item, row_getitem. rewrite Hid.
  unfold dict_setitem. st_unfold. simpl. st_unfold.
  by rewrite (cache_getitem_present _ _ _ _ Hc).
Qed.

Lemma hydrate_items_present t row i l items b :
  row !! id_column t = Some (VInt i) →
  cache t b !! i = Some l →
  for_each items (hydrate_item t row) b
  = (Ok tt, set_heap (alter (insert_all items) l (heap b)) b).
Proof.
  intros Hid. revert b. induction items as [|[k v] items IH]; intros b Hc.
  - simpl. st_unfold. rewrite list_alter_id by done. by rewrite set_heap_same.
  - cbn [for_each]. st_unfold.
    rewrite (hydrate_item_present _ _ _ _ _ _ _ Hid Hc).
    rewrite IH by (by rewrite cache_set_heap).
    rewrite heap_set_heap, set_heap_twice, list_alter_alter_eq.
    reflexivity.
Qed.

Lemma hydrate_items_absent t row i k v items b :
  row !! id_column t = Some (VInt i) →
  cache t b !! i = None →
  for_each ((k, v) :: items) (hydrate_item t row) b
  = (Ok tt,
     set_cache t (<[i := length (heap b)]> (cache t b))
       (set_heap
          (heap b ++ [insert_all ((k, v) :: items) (deepcopy_dict (DEFAULT t b))])
          b)).
Proof.
  intros Hid Hc. cbn [for_each]. st_unfold.
  unfold hydrate_item at 1, row_getitem. rewrite Hid.
  unfold dict_setitem. st_unfold. simpl. st_unfold.
  rewrite (cache_getitem_absent _ _ _ Hc).
  set (D := deepcopy_dict (DEFAULT t b)).
  rewrite (hydrate_items_present t row i (length (heap b))).
  - rewrite heap_set_heap, set_heap_twice, heap_set_cache, heap_set_heap.
    rewrite list_alter_alter_eq, set_heap_set_cache, set_heap_twice.
    replace (length (heap b)) with (length (heap b) + 0)%nat at 2 by lia.
    rewrite alter_app_r. reflexivity.
  - exact Hid.
  - rewrite cache_set_heap, cache_set_cache. apply lookup_insert_eq.
Qed.

(** The whole item loop of a row that carries an integer ID: an entry that
    exists is updated in place, a missing one is first materialized from the
    Default mapping. *)
Lemma hydrate_row_run t row i b :
  row !! id_column t = Some (VInt i) →
  hydrate_row t row b
  = (Ok tt,
     match cache t b !! i with
     | Some l => set_heap (alter (λ d, row ∪ d) l (heap b)) b
     | None =>
         set_cache t (<[i := length (heap b)]> (cache t b))
           (set_heap (heap b ++ [row ∪ DEFAULT t b]) b)
     end).
Proof.
  intros Hid. unfold hydrate_row.
  destruct (cache t b !! i) as [l|] eqn:Hc.
  - rewrite (hydrate_items_present _ _ _ _ _ _ Hid Hc). do 2 f_equal.
    apply list_alter_ext; [|done]. intros d _. apply insert_all_union.
  - destruct (map_to_list row) as [|[k v] items] eqn:Hitems.
    + apply map_to_list_empty_iff in Hitems. subst row.
      by rewrite lookup_empty in Hid.
    + rewrite (hydrate_items_absent _ _ _ _ _ _ _ Hid Hc).
      rewrite <- Hitems, insert_all_union, deepcopy_dict_id. reflexivity.
Qed.

Lemma hydrate_entities_fresh t rows : ∀ b,
  (∀ r, r ∈ rows →
     ∃ i, r !! id_column t = Some (VInt i) ∧ cache t b !! i = None) →
  NoDup ((λ r : dict, r !! id_column t) <$> rows) →
  ∃ b',
    hydrate_entities t rows b = (Ok tt, b') ∧
    (∀ t', DEFAULT t' b' = DEFAULT t' b) ∧
    (∀ r i, r ∈ rows → r !! id_column t = Some (VInt i) →
       ∃ l, cache t b' !! i = Some l ∧
            heap b' !! l = Some (r ∪ DEFAULT t b)) ∧
    (∀ i, (∀ r, r ∈ rows → r !! id_column t ≠ Some (VInt i)) →
       cache t b' !! i = cache t b !! i) ∧
    (∀ l d, heap b !! l = Some d → heap b' !! l = Some d).
Proof.
  induction rows as [|r rows IH]; intros b Hrows Hnd.
  - exists b. repeat split; try done.
    intros r i Hin. by apply elem_of_nil in Hin.
  - rewrite fmap_cons in Hnd. apply NoDup_cons in Hnd as [Hr Hnd].
    destruct (Hrows r) as (i & Hid & Hci); [by left|].
    assert (Hothers : ∀ r', r' ∈ rows → r' !! id_column t ≠ Some (VInt i)).
    { intros r' Hin Heq. apply Hr. rewrite Hid, <- Heq.
      apply list_elem_of_fmap. by exists r'. }
    pose proof (hydrate_row_run t r i b Hid) as Hrun. rewrite Hci in Hrun.
    set (b1 := set_cache t (<[i := length (heap b)]> (cache t b))
                 (set_heap (heap b ++ [r ∪ DEFAULT t b]) b)) in *.
    assert (Hc1 : cache t b1 = <[i := length (heap b)]> (cache t b)).
    { unfold b1. by rewrite cache_set_cache. }
    assert (Hh1 : heap b1 = heap b ++ [r ∪ DEFAULT t b]).
    { unfold b1. by rewrite heap_set_cache. }
    assert (Hd1 : ∀ t', DEFAULT t' b1 = DEFAULT t' b).
    { intros t'. unfold b1. by rewrite DEFAULT_set_cache, DEFAULT_set_heap. }
    destruct (IH b1) as (b' & Hrun' & Hd' & Hent & Hfr & Hheap); [|done|].
    { intros r' Hin. destruct (Hrows r') as (i' & Hid' & Hci'); [by right|].
      exists i'. split; [done|]. rewrite Hc1, lookup_insert_ne; [done|].
      intros ->. by apply (Hothers r'). }
    exists b'. split; [|split; [|split; [|split]]].
    + unfold hydrate_entities in *. cbn [for_each]. st_unfold.
      rewrite Hrun. exact Hrun'.
    + intros t'. by rewrite Hd', Hd1.
    + intros r' i' Hin Hid'. apply elem_of_cons in Hin as [->|Hin].
      * assert (i' = i) as -> by congruence.
        exists (length (heap b)). split.
        -- rewrite (Hfr i Hothers), Hc1. apply lookup_insert_eq.
        -- apply Hheap. rewrite Hh1, lookup_app_r by lia.
           by rewrite Nat.sub_diag.
      * destruct (Hent r' i' Hin Hid') as (l & Hl & Hd). exists l.
        split; [done|]. by rewrite <- Hd1.
    + intros i0 Hi0. rewrite Hfr.
      * rewrite Hc1, lookup_insert_ne; [done|]. intros ->.
        apply (Hi0 r); [by left|done].
      * intros r' Hin. apply Hi0. by right.
    + intros l d Hl. apply Hheap. rewrite Hh1. by apply lookup_app_l_Some.
Qed.

(** C3. Per-entity hydration over the rows of a table (every row carries
    its integer ID, no two rows share one) into a cache that holds none of
    these IDs, as it is right after [clear()], completes, and for every row
    the cache then holds under the row's ID a dictionary in which every
    column of the row has the row's value and every other key is exactly as
    in the Default mapping (present with the default value, or absent). *)
Theorem hydrate_entities_rows (t : table_kind) (rows : list dict) (b : bot) :
  (∀ r, r ∈ rows →
     ∃ i, r !! id_column t = Some (VInt i) ∧ cache t b !! i = None) →
  NoDup ((λ r : dict, r !! id_column t) <$> rows) →
  ∃ b',
    hydrate_entities t rows b = (Ok tt, b') ∧
    DEFAULT t b' = DEFAULT t b ∧
    ∀ r i, r ∈ rows → r !! id_column t = Some (VInt i) →
      ∃ d, entry t i b' = Some d ∧
           (∀ c v, r !! c = Some v → d !! c = Some v) ∧
           (∀ k, r !! k = None → d !! k = DEFAULT t b !! k).
Proof.
  intros Hrows Hnd.
  destruct (hydrate_entities_fresh t rows b Hrows Hnd)
    as (b' & Hrun & Hd & Hent & _ & _).
  exists b'. split; [done|]. split; [done|].
  intros r i Hin Hid. destruct (Hent r i Hin Hid) as (l & Hl & Hh).
  exists (r ∪ DEFAULT t b). split; [|split].
  - unfold entry. rewrite Hl. exact Hh.
  - intros c v Hc. by apply lookup_union_Some_l.
  - intros k Hk. by apply lookup_union_r.
Qed.

Lemma hydrate_entities_rows_witness :
  ∃ b' d,
    hydrate_entities Guild
      [ {[ "guild_id" := VInt 0; "prefix" := VStr "!" ]};
        {[ "guild_id" := VInt 42; "prefix" := VStr "?" ]} ]
      (set_DEFAULT Guild {[ "prefix" := VStr "$"; "lang" := VStr "en" ]} empty_bot)
    = (Ok tt, b') ∧
    entry Guild 42 b' = Some d ∧
    d !! "prefix" = Some (VStr "?") ∧
    d !! "lang" = Some (VStr "en").
Proof.
  destruct (hydrate_entities_rows Guild
    [ {[ "guild_id" := VInt 0; "prefix" := VStr "!" ]};
      {[ "guild_id" := VInt 42; "prefix" := VStr "?" ]} ]
    (set_DEFAULT Guild {[ "prefix" := VStr "$"; "lang" := VStr "en" ]} empty_bot))
    as (b' & Hrun & _ & Hrows).
  - intros r Hin. apply elem_of_cons in Hin as [->|Hin].
    + exists 0. split; reflexivity.
    + apply list_elem_of_singleton in Hin as ->.
      exists 42. split; reflexivity.
  - vm_compute. repeat constructor.
    + intros Hin. apply elem_of_cons in Hin as [Heq|Hin]; [discriminate|].
      by apply elem_of_nil in Hin.
    + intros Hin. by apply elem_of_nil in Hin.
  - destruct (Hrows {[ "guild_id" := VInt 42; "prefix" := VStr "?" ]} 42)
      as (d & Hd & Hcols & Hrest).
    + right. left.
    + reflexivity.
    + exists b', d. split; [exact Hrun|]. split; [exact Hd|]. split.
      * apply Hcols. reflexivity.
      * rewrite Hrest; reflexivity.
Defined.

(** ** Runs in the world *)

Lemma observed_refl w : observed w w [] [] 0 0 0.
Proof. unfold observed. rewrite !app_nil_r. repeat split; lia. Qed.

Lemma observed_trans w w1 w2 tr1 tr2 lg1 lg2 e1 e2 a1 a2 r1 r2 :
  observed w w1 tr1 lg1 e1 a1 r1 → observed w1 w2 tr2 lg2 e2 a2 r2 →
  observed w w2 (tr1 ++ tr2) (lg1 ++ lg2) (e1 + e2) (a1 + a2) (r1 + r2).
Proof.
  intros (Ht1 & Hl1 & He1 & Hc1 & Hp1) (Ht2 & Hl2 & He2 & Hc2 & Hp2).
  unfold observed. rewrite Ht2, Ht1, Hl2, Hl1, He2, He1, Hp2, Hp1, !app_assoc.
  repeat split; lia.
Qed.

Lemma emit_run e w : emit e w = (Ok tt, add_event e w).
Proof. reflexivity. Qed.

Lemma observed_emit e w : observed w (add_event e w) [e] [] 0 0 0.
Proof. unfold observed. simpl. rewrite app_nil_r. repeat split; lia. Qed.

Lemma logger_run lvl msg w : logger lvl msg w = (Ok tt, add_log (lvl, msg) w).
Proof. reflexivity. Qed.

Lemma observed_log entry w : observed w (add_log entry w) [] [entry] 0 0 0.
Proof. unfold observed. simpl. rewrite app_nil_r. repeat split; lia. Qed.

Lemma observed_on_self f w : observed w (on_self f w) [] [] 0 0 0.
Proof. unfold observed. simpl. rewrite !app_nil_r. repeat split; lia. Qed.

Lemma lift_self_run {A} (m : St bot A) w :
  lift_self m w = (fst (m (self w)), on_self (λ _, snd (m (self w))) w).
Proof. unfold lift_self. by destruct (m (self w)). Qed.

(** A statement either raises a database error or is answered; either way
    it is the one event of the call. *)
Lemma db_call_run q w :
  (∃ msg w', db_call q w = (Raise (DatabaseError msg), w') ∧
     observed w w' [EQuery q] [] 1 0 0 ∧ self w' = self w) ∨
  (∃ rows w', db_call q w = (Ok rows, w') ∧
     observed w w' [EQuery q] [] 0 0 0 ∧
     self w' = self w ∧
     (rows, store w') =
       run_sql q (set_script (tail (script (store w))) (store w))).
Proof.
  unfold db_call. rewrite (bind_Ok _ _ _ _ _ (emit_run _ _)).
  destruct w as [b d fs lg tr rdy]. destruct d as [gt ut gd ud sc ce oc er].
  simpl. destruct sc as [|[msg|] sc]; simpl.
  - right. destruct (run_sql q _) as [rows d'] eqn:Hq. exists rows.
    eexists. split; [reflexivity|].
    destruct q as [[]|[]|[]]; simpl in Hq; inversion Hq; subst;
      (split; [|split; [reflexivity|reflexivity]]);
      unfold observed; simpl; rewrite ?app_nil_r; repeat split; lia.
  - left. exists msg. eexists. split; [reflexivity|]. split; [|reflexivity].
    unfold observed; simpl; rewrite ?app_nil_r; repeat split; lia.
  - right. destruct (run_sql q _) as [rows d'] eqn:Hq. exists rows.
    eexists. split; [reflexivity|].
    destruct q as [[]|[]|[]]; simpl in Hq; inversion Hq; subst;
      (split; [|split; [reflexivity|reflexivity]]);
      unfold observed; simpl; rewrite ?app_nil_r; repeat split; lia.
Qed.

(** *** Which IDs end up in a cache *)

Lemma hydrate_item_no_id t r item b :
  (∀ i, r !! id_column t ≠ Some (VInt i)) →
  ∃ e, hydrate_item t r item b = (Raise e, b).
Proof.
  intros Hno. destruct item as [k v]. unfold hydrate_item, row_getitem.
  destruct (r !! id_column t) as [[ | ? | i | ? | ? ]|] eqn:Hid;
    try (eexists; reflexivity).
  by destruct (Hno i).
Qed.

Lemma hydrate_items_no_id t r items b :
  (∀ i, r !! id_column t ≠ Some (VInt i)) →
  snd (for_each items (hydrate_item t r) b) = b.
Proof.
  intros Hno. destruct items as [|item items]; [reflexivity|].
  cbn [for_each]. destruct (hydrate_item_no_id t r item b Hno) as [e He].
  by rewrite (bind_Raise _ _ _ _ _ He).
Qed.

Lemma hydrate_row_mono t r b t' i :
  is_Some (cache t' b !! i) →
  is_Some (cache t' (snd (hydrate_row t r b)) !! i).
Proof.
  intros Hi.
  destruct (r !! id_column t) as [[ | ? | i0 | ? | ? ]|] eqn:Hid;
    try (unfold hydrate_row; rewrite hydrate_items_no_id; [done|];
         intros ?; congruence).
  rewrite (hydrate_row_run t r i0 b Hid). simpl.
  destruct (cache t b !! i0) as [l|] eqn:Hc.
  - by rewrite cache_set_heap.
  - destruct t, t'; simpl in *; try done;
      (destruct (decide (i0 = i)) as [->|Hne];
       [rewrite lookup_insert_eq; eauto | by rewrite lookup_insert_ne]).
Qed.

Lemma hydrate_entities_mono t rows b t' i :
  is_Some (cache t' b !! i) →
  is_Some (cache t' (snd (hydrate_entities t rows b)) !! i).
Proof.
  revert b. induction rows as [|r rows IH]; intros b Hi; [done|].
  unfold hydrate_entities in *. cbn [for_each].
  pose proof (hydrate_row_mono t r b t' i Hi) as H1.
  st_unfold. destruct (hydrate_row t r b) as [[[]| | |] b1]; simpl in *; try done.
  by apply IH.
Qed.

(** When the row loop completes, every ID it met is a key of the cache. *)
Lemma hydrate_entities_Ok_dom t rows b b' :
  hydrate_entities t rows b = (Ok tt, b') →
  ∀ r i, r ∈ rows → r !! id_column t = Some (VInt i) →
    is_Some (cache t b' !! i).
Proof.
  revert b. induction rows as [|r0 rows IH]; intros b Hrun r i Hin Hid.
  - by apply elem_of_nil in Hin.
  - unfold hydrate_entities in Hrun. cbn [for_each] in Hrun.
    apply bind_Ok_inv in Hrun as ([] & b1 & H0 & Hrest).
    apply elem_of_cons in Hin as [->|Hin].
    + assert (is_Some (cache t b1 !! i)) as Hi.
      { rewrite (hydrate_row_run t r0 i b Hid) in H0.
        inversion H0 as [Hb1]. destruct (cache t b !! i) as [l|] eqn:Hc.
        - rewrite cache_set_heap, Hc. eauto.
        - rewrite cache_set_cache, lookup_insert_eq. eauto. }
      pose proof (hydrate_entities_mono t rows b1 t i Hi) as Hm.
      unfold hydrate_entities in Hm. by rewrite Hrest in Hm.
    + by apply (IH b1 Hrest r i).
Qed.

Lemma table_set_script t s d : table t (set_script s d) = table t d.
Proof. by destruct t. Qed.

Lemma bulk_select_run t w :
  (∃ msg w', _get_all_table_data t w = (SystemExit 1, w') ∧
     observed w w' [EQuery (SelectAll t)]
       [(CRITICAL, "Error selecting from table - " +:+ msg)] 1 0 0 ∧
     self w' = self w) ∨
  (∃ w', _get_all_table_data t w = (Ok (table t (store w)), w') ∧
     observed w w' [EQuery (SelectAll t)] [] 0 0 0 ∧
     self w' = self w).
Proof.
  unfold _get_all_table_data, _run_sql_exit_on_error, try_except.
  destruct (db_call_run (SelectAll t) w)
    as [(msg & w1 & Hrun & Hobs & Hself)|(rows & w1 & Hrun & Hobs & Hself & Hq)];
    rewrite Hrun.
  - left. exists msg. eexists. split; [|split].
    + rewrite (bind_Ok _ _ _ _ _ (logger_run _ _ _)). reflexivity.
    + apply (observed_trans _ _ _ _ _ _ _ _ _ _ _ _ _ Hobs (observed_log _ _)).
    + exact Hself.
  - right. exists w1. simpl in Hq. inversion Hq as [[Hrows Hstore]].
    rewrite table_set_script in Hrows. subst rows.
    split; [by rewrite Hstore, table_set_script|by split].
Qed.

(** *** One table *)

Lemma load_settings_unfold t :
  load_settings t =
    (default_settings ← db_call (SelectSentinel t);
     default_settings ←
       (if bool_decide (default_settings = [])
        then db_call (InsertSentinel t)
        else mret default_settings);
     row0 ← first_row default_settings;
     hydrate_from t row0).
Proof. reflexivity. Qed.

Lemma lift_hydrate_defaults_run t row w :
  lift_self (hydrate_defaults t row) w
  = (Ok tt,
     on_self (λ _, set_DEFAULT t
                     (setdefault_all (map_to_list row) (DEFAULT t (self w)))
                     (self w)) w).
Proof. by rewrite lift_self_run, hydrate_defaults_run. Qed.

Lemma hydrate_from_end t row0 inserted w :
  (∃ r, r ∈ table t (store w) ∧ r !! id_column t = Some (VInt 0)) →
  ∃ e w',
    hydrate_from t row0 w = (load_outcome e, w') ∧
    load_stopped e = negb (is_ok (load_outcome e)) ∧
    observed w w' (drop (length (sentinel_events t inserted)) (load_trace t e))
      (load_log e) (load_errors e) 0 0 ∧
    take (length (sentinel_events t inserted)) (load_trace t e)
      = sentinel_events t inserted ∧
    (is_ok (load_outcome e) = true → is_Some (cache t (self w') !! 0)) ∧
    keeps_keys (self w) (self w').
Proof.
  intros (r & Hr & Hid). unfold hydrate_from.
  rewrite (bind_Ok _ _ _ _ _ (emit_run _ _)).
  rewrite (bind_Ok _ _ _ _ _ (lift_hydrate_defaults_run _ _ _)).
  set (w1 := on_self _ (add_event _ w)).
  assert (O1 : observed w w1 [EHydrateDefaults t] [] 0 0 0).
  { apply (observed_trans _ _ _ _ _ _ _ _ _ _ _ _ _
             (observed_emit _ w) (observed_on_self _ _)). }
  assert (K1 : keeps_keys (self w) (self w1)).
  { intros t' i. unfold w1. simpl. by rewrite cache_set_DEFAULT. }
  destruct (bulk_select_run t w1)
    as [(msg & w2 & Hrun & O2 & S2)|(w2 & Hrun & O2 & S2)].
  - exists (BulkSelectFailed inserted msg), w2.
    rewrite (bind_SystemExit _ _ _ _ _ Hrun).
    split; [reflexivity|]. split; [reflexivity|]. split; [|split; [|split]].
    + destruct inserted;
        apply (observed_trans _ _ _ _ _ _ _ _ _ _ _ _ _ O1 O2).
    + by destruct inserted.
    + discriminate.
    + by rewrite S2.
  - rewrite (bind_Ok _ _ _ _ _ Hrun).
    rewrite (bind_Ok _ _ _ _ _ (emit_run _ _)).
    rewrite lift_self_run. cbn [self add_event].
    assert (Hr1 : r ∈ table t (store w1)) by exact Hr.
    destruct (hydrate_entities t (table t (store w1)) (self w2))
      as [o b'] eqn:He. cbn [fst snd].
    set (w3 := on_self _ (add_event _ w2)).
    assert (O3 : observed w w3
              [EHydrateDefaults t; EQuery (SelectAll t); EHydrateEntities t]
              [] 0 0 0).
    { apply (observed_trans _ _ _ _ _ _ _ _ _ _ _ _ _ O1
         (observed_trans _ _ _ _ _ _ _ _ _ _ _ _ _ O2
            (observed_trans _ _ _ _ _ _ _ _ _ _ _ _ _
               (observed_emit _ w2) (observed_on_self _ _)))). }
    assert (K3 : keeps_keys (self w) (self w3)).
    { intros t' i Hi. unfold w3. simpl.
      pose proof (hydrate_entities_mono t (table t (store w1)) (self w2) t' i)
        as Hm. rewrite He in Hm. apply Hm. rewrite S2. by apply K1. }
    destruct o as [[]|e|c|].
    + exists (Loaded inserted), w3. split; [reflexivity|].
      split; [reflexivity|]. split; [by destruct inserted|].
      split; [by destruct inserted|]. split; [|done].
      intros _. unfold w3. simpl.
      apply (hydrate_entities_Ok_dom _ _ _ _ He r 0 Hr1 Hid).
    + exists (EntitiesStopped inserted (Raise e)), w3.
      split; [reflexivity|]. split; [reflexivity|].
      split; [by destruct inserted|]. split; [by destruct inserted|].
      split; [discriminate|done].
    + exists (EntitiesStopped inserted (SystemExit c)), w3.
      split; [reflexivity|]. split; [reflexivity|].
      split; [by destruct inserted|]. split; [by destruct inserted|].
      split; [discriminate|done].
    + exists (EntitiesStopped inserted Blocked), w3.
      split; [reflexivity|]. split; [reflexivity|].
      split; [by destruct inserted|]. split; [by destruct inserted|].
      split; [discriminate|done].
Qed.

Lemma table_set_table t rows d : table t (set_table t rows d) = rows.
Proof. by destruct t. Qed.

Lemma is_sentinel_id t r : is_sentinel t r = true → r !! id_column t = Some (VInt 0).
Proof.
  unfold is_sentinel.
  destruct (r !! id_column t) as [[ | ? | [| |] | ? | ? ]|]; by try discriminate.
Qed.

(** However a pass over one table ends, it ends in one of the ways of
    [load_end]; when it completes, ID 0 is a key of the table's cache. *)
Lemma load_settings_end t w :
  ∃ e w',
    load_settings t w = (load_outcome e, w') ∧
    load_stopped e = negb (is_ok (load_outcome e)) ∧
    observed w w' (load_trace t e) (load_log e) (load_errors e) 0 0 ∧
    (is_ok (load_outcome e) = true → is_Some (cache t (self w') !! 0)) ∧
    keeps_keys (self w) (self w').
Proof.
  rewrite load_settings_unfold.
  destruct (db_call_run (SelectSentinel t) w)
    as [(msg & w1 & H1 & O1 & S1)|(rows & w1 & H1 & O1 & S1 & Q1)].
  - exists (SentinelSelectFailed msg), w1.
    rewrite (bind_Raise _ _ _ _ _ H1). repeat split; try apply O1.
    + discriminate.
    + intros t' i. by rewrite S1.
  - rewrite (bind_Ok _ _ _ _ _ H1). simpl in Q1.
    apply pair_equal_spec in Q1 as [Hrows Hstore].
    rewrite table_set_script in Hrows.
    destruct rows as [|r0 rs].
    + rewrite bool_decide_eq_true_2 by done. cbv iota.
      destruct (db_call_run (InsertSentinel t) w1)
        as [(msg & w2 & H2 & O2 & S2)|(rows2 & w2 & H2 & O2 & S2 & Q2)].
      * exists (SentinelInsertFailed msg), w2.
        rewrite (bind_Raise _ _ _ _ _ H2).
        split; [reflexivity|]. split; [reflexivity|]. split; [|split].
        -- apply (observed_trans _ _ _ _ _ _ _ _ _ _ _ _ _ O1 O2).
        -- discriminate.
        -- intros t' i. by rewrite S2, S1.
      * rewrite (bind_Ok _ _ _ _ _ H2). simpl in Q2.
        apply pair_equal_spec in Q2 as [Hrows2 Hstore2].
        set (r := <[id_column t := VInt 0]> _) in *. subst rows2.
        rewrite (bind_Ok _ _ _ _ _ (eq_refl : first_row [r] w2 = (Ok r, w2))).
        destruct (hydrate_from_end t r true w2)
          as (e & w' & Hrun & Hstop & O & Htake & Hzero & Hkeys).
        { exists r. split.
          - rewrite Hstore2, table_set_table. apply elem_of_app. right.
            by left.
          - apply lookup_insert_eq. }
        exists e, w'. split; [exact Hrun|]. split; [exact Hstop|].
        split; [|split; [exact Hzero|]].
        -- pose proof (observed_trans _ _ _ _ _ _ _ _ _ _ _ _ _ O1
                         (observed_trans _ _ _ _ _ _ _ _ _ _ _ _ _ O2 O)) as OO.
           simpl in OO. rewrite <- (take_drop 2 (load_trace t e)).
           simpl in Htake. rewrite Htake. exact OO.
        -- intros t' i Hi. apply Hkeys. by rewrite S2, S1.
    + rewrite bool_decide_eq_false_2 by done. cbv iota.
      rewrite (bind_Ok _ _ _ _ _ (mret_run (r0 :: rs) w1)).
      rewrite (bind_Ok _ _ _ _ _
                 (eq_refl : first_row (r0 :: rs) w1 = (Ok r0, w1))).
      destruct (hydrate_from_end t r0 false w1)
        as (e & w' & Hrun & Hstop & O & Htake & Hzero & Hkeys).
      { assert (r0 ∈ filter (λ r, is_sentinel t r = true) (table t (store w)))
          as Hin by (rewrite <- Hrows; by left).
        apply list_elem_of_filter in Hin as [Hs Hin].
        exists r0. split; [|by apply is_sentinel_id].
        by rewrite Hstore, table_set_script. }
      exists e, w'. split; [exact Hrun|]. split; [exact Hstop|].
      split; [|split; [exact Hzero|]].
      * pose proof (observed_trans _ _ _ _ _ _ _ _ _ _ _ _ _ O1 O) as OO.
        simpl in OO. rewrite <- (take_drop 1 (load_trace t e)).
        simpl in Htake. rewrite Htake. exact OO.
      * intros t' i Hi. apply Hkeys. by rewrite S1.
Qed.

(** *** The whole sequence *)

Lemma lift_modify_run f w :
  lift_self (modify f) w = (Ok tt, on_self (λ _, f (self w)) w).
Proof. reflexivity. Qed.

Lemma cache_clear_run t w :
  lift_self (cache_clear t) w
  = (Ok tt, on_self (λ _, set_cache t ∅ (self w)) w).
Proof. reflexivity. Qed.

Lemma get_connection_run w :
  (∃ msg w', get_connection w = (Raise (DatabaseError msg), w') ∧
     connect_error (store w) = Some msg ∧
     observed w w' [EConnect] [] 1 0 0 ∧ self w' = self w) ∨
  (∃ w', get_connection w = (Ok tt, w') ∧
     connect_error (store w) = None ∧
     observed w w' [EConnect] [] 0 1 0 ∧ self w' = self w).
Proof.
  unfold get_connection. rewrite (bind_Ok _ _ _ _ _ (emit_run _ _)).
  destruct w as [b d fs lg tr rdy]. destruct d as [gt ut gd ud sc ce oc er].
  simpl. destruct ce as [msg|]; [left; exists msg|right];
    (eexists; split; [reflexivity|]; split; [reflexivity|];
     split; [|reflexivity]);
    unfold observed; simpl; rewrite ?app_nil_r; repeat split; lia.
Qed.


(** The extensions' [cache_setup] coroutines run one after the other, in
    order, until one of them does not return. *)
Lemma run_cache_setup_end cogs w :
  ∃ w',
    (run_cache_setup cogs w = (Ok tt, w') ∧
     observed w w' (cog_events cogs) [] 0 0 0) ∨
    (∃ n o, (n < length cogs)%nat ∧ is_ok o = false ∧
       run_cache_setup cogs w = (o, w') ∧
       observed w w' (cog_events (take (S n) cogs)) [] 0 0 0).
Proof.
  revert w. induction cogs as [|[name setup] cogs IH]; intros w.
  - exists w. left. split; [reflexivity|apply observed_refl].
  - unfold run_cache_setup in *. cbn [for_each]. cbv beta iota.
    destruct (default fake_cache_setup_method setup
                (self (add_event (ECacheSetup name) w))) as [o b'] eqn:Hs.
    set (w1 := on_self (λ _, b') (add_event (ECacheSetup name) w)).
    assert (Hstep :
      (emit (ECacheSetup name)
         ≫= λ _, lift_self (default fake_cache_setup_method setup)) w
      = (o, w1)).
    { rewrite (bind_Ok _ _ _ _ _ (emit_run _ w)).
      by rewrite lift_self_run, Hs. }
    assert (O1 : observed w w1 [ECacheSetup name] [] 0 0 0).
    { apply (observed_trans _ _ _ _ _ _ _ _ _ _ _ _ _
               (observed_emit _ w) (observed_on_self _ _)). }
    destruct o as [[]|e|c|].
    + destruct (IH w1) as (w' & [[Hrun O]|(n & o & Hn & Ho & Hrun & O)]);
        exists w'.
      * left. rewrite (bind_Ok _ _ _ _ _ Hstep). split; [exact Hrun|].
        apply (observed_trans _ _ _ _ _ _ _ _ _ _ _ _ _ O1 O).
      * right. exists (S n), o. split; [simpl; lia|]. split; [done|].
        rewrite (bind_Ok _ _ _ _ _ Hstep). split; [exact Hrun|].
        apply (observed_trans _ _ _ _ _ _ _ _ _ _ _ _ _ O1 O).
    + exists w1. right. exists 0%nat, (Raise e).
      rewrite (bind_Raise _ _ _ _ _ Hstep).
      split; [simpl; lia|]. split; [done|]. split; [done|]. exact O1.
    + exists w1. right. exists 0%nat, (SystemExit c).
      rewrite (bind_SystemExit _ _ _ _ _ Hstep).
      split; [simpl; lia|]. split; [done|]. split; [done|]. exact O1.
    + exists w1. right. exists 0%nat, Blocked.
      rewrite (bind_Blocked _ _ _ _ Hstep).
      split; [simpl; lia|]. split; [done|]. split; [done|]. exact O1.
Qed.

Lemma load_end_Ok t e :
  load_outcome e = Ok tt →
  ∃ inserted,
    load_trace t e = table_events t inserted ∧
    load_log e = [] ∧ load_errors e = 0%nat.
Proof.
  destruct e as [msg|msg|ins msg|ins o|ins]; simpl; try discriminate;
    intros _; by exists ins.
Qed.

Lemma wait_until_ready_run w :
  wait_until_ready w =
    (if platform_ready w then Ok tt else Blocked, add_event EWaitReady w).
Proof. unfold wait_until_ready. st_unfold. simpl. by destruct (platform_ready w). Qed.

Lemma disconnect_run w :
  disconnect w =
    (Ok tt,
     on_store (λ d, set_open_connections (pred (open_connections d)) d)
       (add_event EDisconnect w)).
Proof. reflexivity. Qed.

Lemma observed_disconnect w :
  (1 ≤ open_connections (store w))%nat →
  observed w
    (on_store (λ d, set_open_connections (pred (open_connections d)) d)
       (add_event EDisconnect w))
    [EDisconnect] [] 0 0 1.
Proof.
  intros H. unfold observed. simpl. rewrite app_nil_r. repeat split; lia.
Qed.

Lemma observed_eq w w' tr tr' lg lg' e e' a a' r r' :
  observed w w' tr lg e a r →
  tr = tr' → lg = lg' → e = e' → a = a' → r = r' →
  observed w w' tr' lg' e' a' r'.
Proof. by intros H <- <- <- <- <-. Qed.

Ltac stop_run Hrun H :=
  first [ rewrite (bind_Raise _ _ _ _ _ H) in Hrun
        | rewrite (bind_SystemExit _ _ _ _ _ H) in Hrun
        | rewrite (bind_Blocked _ _ _ _ H) in Hrun ];
  apply pair_equal_spec in Hrun as [<- <-].

Ltac solve_observed O :=
  eapply observed_eq;
  [ exact O
  | unfold startup_trace, startup_events, opening_events; simpl;
    repeat (progress (rewrite <- ?app_assoc; simpl)); try reflexivity
  | simpl; rewrite ?app_nil_r; try reflexivity
  | simpl; lia | simpl; lia | simpl; lia ].

(** However [_startup] ends, it ends in one of the ways of [startup_end],
    having performed exactly the events, log entries, database errors and
    connection operations of that end. *)
Lemma _startup_end cogs w :
  ∃ e w',
    _startup cogs w = (startup_outcome e, w') ∧
    startup_end_wf cogs e ∧
    observed w w' (startup_trace cogs e) (startup_log e) (startup_errors e)
      (startup_acquired e) (startup_released e) ∧
    connect_error (store w)
      = match e with ConnectFailed msg => Some msg | _ => None end.
Proof.
  destruct (_startup cogs w) as [o w'] eqn:Hrun. unfold _startup in Hrun.
  rewrite (bind_Ok _ _ _ _ _ (logger_run _ _ _)) in Hrun.
  rewrite (bind_Ok _ _ _ _ _ (emit_run _ _)) in Hrun.
  rewrite (bind_Ok _ _ _ _ _ (cache_clear_run _ _)) in Hrun.
  rewrite (bind_Ok _ _ _ _ _ (emit_run _ _)) in Hrun.
  rewrite (bind_Ok _ _ _ _ _ (cache_clear_run _ _)) in Hrun.
  match type of Hrun with (_ ≫= _) ?x = _ => set (w1 := x) in * end.
  assert (O1 : observed w w1 [EClear Guild; EClear User]
                 [(DEBUG, "Clearing caches")] 0 0 0).
  { unfold observed, w1. simpl. rewrite <- app_assoc.
    repeat split; lia. }
  destruct (get_connection_run w1)
    as [(msg & w2 & H2 & C2 & O2 & _)|(w2 & H2 & C2 & O2 & _)].
  { stop_run Hrun H2. exists (ConnectFailed msg), w2.
    split; [done|]. split; [done|]. split; [|exact C2].
    exact (observed_trans _ _ _ _ _ _ _ _ _ _ _ _ _ O1 O2). }
  rewrite (bind_Ok _ _ _ _ _ H2) in Hrun.
  pose proof (observed_trans _ _ _ _ _ _ _ _ _ _ _ _ _ O1 O2) as O12.
  clear O1 O2.
  (* guild settings *)
  destruct (load_settings_end Guild w2) as (e1 & w3 & H3 & S3 & O3 & _ & _).
  pose proof (observed_trans _ _ _ _ _ _ _ _ _ _ _ _ _ O12 O3) as O13.
  clear O12 O3.
  destruct (load_outcome e1) as [[]|x|c|] eqn:Ho1;
    [|stop_run Hrun H3; exists (GuildStopped e1), w3; simpl; rewrite Ho1;
      (split; [done|]; split; [by rewrite S3|]; split; [|exact C2]);
      solve_observed O13..].
  rewrite (bind_Ok _ _ _ _ _ H3) in Hrun.
  destruct (load_end_Ok Guild e1 Ho1) as (g & Tg & Lg & Eg).
  rewrite Tg, Lg, Eg in O13. clear H3 S3 Ho1 Tg Lg Eg e1.
  (* user settings *)
  destruct (load_settings_end User w3) as (e2 & w4 & H4 & S4 & O4 & _ & _).
  pose proof (observed_trans _ _ _ _ _ _ _ _ _ _ _ _ _ O13 O4) as O14.
  clear O13 O4.
  destruct (load_outcome e2) as [[]|x|c|] eqn:Ho2;
    [|stop_run Hrun H4; exists (UserStopped g e2), w4; simpl; rewrite Ho2;
      (split; [done|]; split; [by rewrite S4|]; split; [|exact C2]);
      solve_observed O14..].
  rewrite (bind_Ok _ _ _ _ _ H4) in Hrun.
  destruct (load_end_Ok User e2 Ho2) as (u & Tu & Lu & Eu).
  rewrite Tu, Lu, Eu in O14. clear H4 S4 Ho2 Tu Lu Eu e2.
  (* extensions *)
  destruct (run_cache_setup_end cogs w4)
    as (w5 & [[H5 O5]|(n & o5 & Hn & Hok & H5 & O5)]);
    pose proof (observed_trans _ _ _ _ _ _ _ _ _ _ _ _ _ O14 O5) as O15;
    clear O14 O5.
  2:{ destruct o5 as [[]|x|c|]; [discriminate|..];
        stop_run Hrun H5;
        match goal with
        | |- ∃ e w', (?o, _) = _ ∧ _ => exists (SetupStopped g u n o), w5
        end;
        (split; [done|]; split; [done|]; split; [|exact C2]);
        solve_observed O15. }
  rewrite (bind_Ok _ _ _ _ _ H5) in Hrun.
  rewrite (bind_Ok _ _ _ _ _ (logger_run _ _ _)) in Hrun.
  set (w6 := add_log (DEBUG,
                "Waiting until ready before completing startup method.") w5)
    in *.
  pose proof (observed_trans _ _ _ _ _ _ _ _ _ _ _ _ _ O15
                (observed_log _ w5 : observed w5 w6 _ _ _ _ _)) as O16.
  clear O15.
  pose proof (observed_trans _ _ _ _ _ _ _ _ _ _ _ _ _ O16
                (observed_emit EWaitReady w6)) as O17. clear O16.
  pose proof (wait_until_ready_run w6) as H7.
  destruct (platform_ready w6) eqn:Hready.
  2:{ stop_run Hrun H7. exists (NeverReady g u). eexists.
      split; [reflexivity|]. split; [done|]. split; [|exact C2].
      solve_observed O17. }
  rewrite (bind_Ok _ _ _ _ _ H7) in Hrun. rewrite disconnect_run in Hrun.
  apply pair_equal_spec in Hrun as [<- <-].
  exists (Completed g u). eexists. split; [reflexivity|]. split; [done|].
  split; [|exact C2].
  assert (1 ≤ open_connections (store (add_event EWaitReady w6)))%nat
    as Hopen.
  { destruct O17 as (_ & _ & _ & Hc & _). lia. }
  pose proof (observed_trans _ _ _ _ _ _ _ _ _ _ _ _ _ O17
                (observed_disconnect _ Hopen)) as O18.
  solve_observed O18.
Qed.

(** [startup]: what the handler adds to the way [_startup] ended. *)
Lemma startup_run cogs w :
  ∃ e w',
    startup cogs w = (handled_outcome (startup_outcome e), w') ∧
    startup_end_wf cogs e ∧
    observed w w' (startup_trace cogs e)
      (startup_log e ++ handler_log (startup_outcome e))
      (startup_errors e) (startup_acquired e) (startup_released e) ∧
    connect_error (store w)
      = match e with ConnectFailed msg => Some msg | _ => None end.
Proof.
  destruct (_startup_end cogs w) as (e & w1 & Hrun & Hwf & O & Hc).
  exists e. unfold startup, try_except. rewrite Hrun.
  destruct (startup_outcome e) as [[]|x|c|] eqn:Ho.
  - exists w1. split; [reflexivity|]. split; [done|]. split; [|done].
    solve_observed O.
  - eexists. rewrite (bind_Ok _ _ _ _ _ (logger_run _ _ _)).
    split; [reflexivity|]. split; [done|]. split; [|done].
    pose proof (observed_trans _ _ _ _ _ _ _ _ _ _ _ _ _ O
                  (observed_log (ERROR, exn_str x) w1)) as O'.
    solve_observed O'. by rewrite app_nil_r.
  - exists w1. split; [reflexivity|]. split; [done|]. split; [|done].
    solve_observed O.
  - exists w1. split; [reflexivity|]. split; [done|]. split; [|done].
    solve_observed O.
Qed.

(** *** Order of the steps *)


Lemma load_stopped_not_Ok e : load_stopped e = true → load_outcome e ≠ Ok tt.
Proof.
  destruct e as [?|?|? ?|ins o|ins]; simpl; try discriminate.
  by intros H ->.
Qed.







(** *** Database errors *)

Lemma startup_failure_shape cogs e :
  startup_errors e ≠ 0%nat →
  handled_outcome (startup_outcome e) = SystemExit 1 ∧
  ∃ lvl text failing,
    startup_log e ++ handler_log (startup_outcome e)
      = [(DEBUG, "Clearing caches"); (lvl, text)] ∧
    last (startup_trace cogs e) = Some failing ∧
    logged_at failing lvl.
Proof.
  unfold logged_at.
  destruct e as [msg|[msg|msg|ins msg|ins o|ins]|g [msg|msg|ins msg|ins o|ins]
                |g u n o|g u|g u]; simpl; intros Hne; try lia;
    (split; [reflexivity|]).
  - exists ERROR, msg, EConnect.
    split; [reflexivity|]. split; [reflexivity|]. right. by split; [left|].
  - exists ERROR, msg, (EQuery (SelectSentinel Guild)).
    split; [reflexivity|]. split; [reflexivity|]. right.
    split; [right; exists Guild; by left|done].
  - exists ERROR, msg, (EQuery (InsertSentinel Guild)).
    split; [reflexivity|]. split; [reflexivity|]. right.
    split; [right; exists Guild; by right|done].
  - eexists CRITICAL, _, (EQuery (SelectAll Guild)).
    split; [reflexivity|]. split; [by destruct ins|]. left.
    split; [by exists Guild|done].
  - exists ERROR, msg, (EQuery (SelectSentinel User)).
    split; [reflexivity|]. split; [by destruct g|]. right.
    split; [right; exists User; by left|done].
  - exists ERROR, msg, (EQuery (InsertSentinel User)).
    split; [reflexivity|]. split; [by destruct g|]. right.
    split; [right; exists User; by right|done].
  - eexists CRITICAL, _, (EQuery (SelectAll User)).
    split; [reflexivity|]. split; [by destruct g, ins|]. left.
    split; [by exists User|done].
Qed.

(** C4, as the code has it. Whenever the database raises an error during
    startup (acquiring the connection, or in any of the statements), the
    process exits with status 1, nothing of the sequence runs after the
    failing call, and besides the debug line of the cache clearing exactly
    one log entry is written: at critical level when the failing statement
    is a bulk select (it goes through [_run_sql_exit_on_error]), at error
    level when it is the connection or a sentinel select or insert (the
    exception reaches the handler of [startup], which logs with
    [logger.error]). *)
Theorem startup_database_error (cogs : list cog) (w : world) :
  errors_raised (store (final (startup cogs) w)) ≠ errors_raised (store w) →
  result (startup cogs) w = SystemExit 1 ∧
  ∃ lvl text failing,
    log (final (startup cogs) w)
      = log w ++ [(DEBUG, "Clearing caches"); (lvl, text)] ∧
    last (trace (final (startup cogs) w)) = Some failing ∧
    logged_at failing lvl.
Proof.
  destruct (startup_run cogs w) as (e & w' & Hrun & _ & O & _).
  unfold final, result. rewrite Hrun. cbn [fst snd]. intros Herr.
  destruct O as (Ht & Hl & He & _).
  destruct (startup_failure_shape cogs e) as (Ho & lvl & text & failing & Hlog & Hlast & Hat).
  { intros H0. rewrite H0 in He. apply Herr. lia. }
  split; [exact Ho|]. exists lvl, text, failing.
  split; [by rewrite Hl, Hlog|]. split; [|exact Hat].
  by rewrite Ht, last_app, Hlast.
Qed.

Lemma startup_database_error_witness :
  result (startup []) (dollar_world [None; Some "connection is closed"])
    = SystemExit 1 ∧
  log (final (startup []) (dollar_world [None; Some "connection is closed"]))
    = log (dollar_world [None; Some "connection is closed"])
        ++ [(DEBUG, "Clearing caches");
            (CRITICAL, "Error selecting from table - connection is closed")].
Proof.
  destruct (startup_database_error []
              (dollar_world [None; Some "connection is closed"]))
    as (Hexit & lvl & text & failing & Hlog & _ & _).
  - vm_compute. lia.
  - split; [exact Hexit|]. reflexivity.
Defined.

(** C4 as stated fails: when the sentinel select raises a database error,
    the process exits with status 1, but the number of entries written at
    critical level is not one (the one entry is at error level). *)
Lemma sentinel_error_not_critical :
  errors_raised
    (store (final (startup []) (dollar_world [Some "connection is closed"])))
    ≠ errors_raised (store (dollar_world [Some "connection is closed"])) ∧
  result (startup []) (dollar_world [Some "connection is closed"])
    = SystemExit 1 ∧
  count_level CRITICAL
    (log (final (startup []) (dollar_world [Some "connection is closed"])))
    ≠ 1%nat ∧
  count_level ERROR
    (log (final (startup []) (dollar_world [Some "connection is closed"])))
    = 1%nat.
Proof. vm_compute. repeat split; (lia || discriminate || reflexivity). Qed.

(** *** The connection *)

Lemma handled_Ok_Completed cogs e :
  startup_end_wf cogs e →
  handled_outcome (startup_outcome e) = Ok tt →
  ∃ g u, e = Completed g u.
Proof.
  intros Hwf.
  destruct e as [msg|e|g e|g u n o|g u|g u]; simpl in *; try discriminate.
  - intros Ho. destruct (load_stopped_not_Ok e Hwf).
    by destruct (load_outcome e) as [[]| | |].
  - intros Ho. destruct (load_stopped_not_Ok e Hwf).
    by destruct (load_outcome e) as [[]| | |].
  - destruct Hwf as [_ Hok]. by destruct o.
  - intros _. by exists g, u.
Qed.

(** C8, as the code has it. The connection [_startup] acquires is released
    when the sequence completes: the run ends with the disconnect and leaves
    as many connections open as there were. On every other way out (an
    exception, an exit, a wait that never ends) after the connection was
    acquired, nothing releases it: one more connection is open than before. *)
Theorem startup_connection (cogs : list cog) (w : world) :
  (result (startup cogs) w = Ok tt →
     open_connections (store (final (startup cogs) w))
       = open_connections (store w) ∧
     last (trace (final (startup cogs) w)) = Some EDisconnect) ∧
  (result (startup cogs) w ≠ Ok tt →
   connect_error (store w) = None →
     open_connections (store (final (startup cogs) w))
       = S (open_connections (store w))).
Proof.
  destruct (startup_run cogs w) as (e & w' & Hrun & Hwf & O & Hc).
  unfold final, result. rewrite Hrun. cbn [fst snd].
  destruct O as (Ht & _ & _ & Hopen & _). split.
  - intros Ho. destruct (handled_Ok_Completed cogs e Hwf Ho) as (g & u & ->).
    simpl in Hopen. split; [lia|].
    rewrite Ht. cbn [startup_trace]. unfold startup_events.
    change [EWaitReady; EDisconnect] with ([EWaitReady] ++ [EDisconnect]).
    rewrite !app_assoc. apply last_snoc.
  - intros Ho Hnone.
    destruct e as [msg|e|g e|g u n o|g u|g u]; simpl in *;
      try congruence; lia.
Qed.

Lemma startup_connection_witness :
  open_connections (store (final (startup []) (dollar_world [])))
    = open_connections (store (dollar_world [])) ∧
  open_connections
    (store (final (startup []) (dollar_world [Some "connection is closed"])))
    = S (open_connections (store (dollar_world [Some "connection is closed"]))).
Proof.
  split.
  - apply (proj1 (startup_connection [] (dollar_world []))). reflexivity.
  - apply (proj2 (startup_connection []
                    (dollar_world [Some "connection is closed"]))).
    + vm_compute. discriminate.
    + reflexivity.
Defined.

(** C8 as stated fails: when a statement raises after the connection was
    acquired, the run ends ([exit(1)]) without a disconnect and with the
    connection still open. *)
Lemma connection_left_open :
  result (startup []) (dollar_world [Some "connection is closed"])
    = SystemExit 1 ∧
  open_connections (store (dollar_world [Some "connection is closed"])) = 0%nat ∧
  open_connections
    (store (final (startup []) (dollar_world [Some "connection is closed"])))
    = 1%nat ∧
  EDisconnect ∉
    trace (final (startup []) (dollar_world [Some "connection is closed"])).
Proof.
  split; [reflexivity|]. split; [reflexivity|]. split; [reflexivity|].
  vm_compute. intros H. repeat (apply elem_of_cons in H as [H|H]; [discriminate|]).
  by apply elem_of_nil in H.
Qed.

(** *** Entity ID 0 *)

Lemma keeps_keys_refl b : keeps_keys b b.
Proof. by intros t i. Qed.

Lemma keeps_keys_trans b1 b2 b3 :
  keeps_keys b1 b2 → keeps_keys b2 b3 → keeps_keys b1 b3.
Proof. intros H1 H2 t i Hi. by apply H2, H1. Qed.

Lemma run_cache_setup_keys cogs w o w' :
  (∀ c b, c ∈ cogs →
     keeps_keys b (snd (default fake_cache_setup_method (snd c) b))) →
  run_cache_setup cogs w = (o, w') →
  keeps_keys (self w) (self w').
Proof.
  revert w. induction cogs as [|[name setup] cogs IH]; intros w Hcogs Hrun.
  - apply pair_equal_spec in Hrun as [_ <-]. apply keeps_keys_refl.
  - unfold run_cache_setup in *. cbn [for_each] in Hrun. cbv beta iota in Hrun.
    destruct (default fake_cache_setup_method setup
                (self (add_event (ECacheSetup name) w))) as [o1 b'] eqn:Hs.
    set (w1 := on_self (λ _, b') (add_event (ECacheSetup name) w)).
    assert (Hstep :
      (emit (ECacheSetup name)
         ≫= λ _, lift_self (default fake_cache_setup_method setup)) w
      = (o1, w1)).
    { rewrite (bind_Ok _ _ _ _ _ (emit_run _ w)).
      by rewrite lift_self_run, Hs. }
    assert (K1 : keeps_keys (self w) (self w1)).
    { pose proof (Hcogs (name, setup) (self w)) as Hk. simpl in Hk.
      simpl in Hs. rewrite Hs in Hk. apply Hk. by left. }
    destruct o1 as [[]|e|c|].
    + rewrite (bind_Ok _ _ _ _ _ Hstep) in Hrun.
      apply (keeps_keys_trans _ _ _ K1). apply IH; [|exact Hrun].
      intros c b Hin. apply Hcogs. by right.
    + rewrite (bind_Raise _ _ _ _ _ Hstep) in Hrun.
      by apply pair_equal_spec in Hrun as [_ <-].
    + rewrite (bind_SystemExit _ _ _ _ _ Hstep) in Hrun.
      by apply pair_equal_spec in Hrun as [_ <-].
    + rewrite (bind_Blocked _ _ _ _ Hstep) in Hrun.
      by apply pair_equal_spec in Hrun as [_ <-].
Qed.

Lemma load_settings_Ok t w w' :
  load_settings t w = (Ok tt, w') →
  is_Some (cache t (self w') !! 0) ∧ keeps_keys (self w) (self w').
Proof.
  intros Hrun.
  destruct (load_settings_end t w) as (e & w1 & H & _ & _ & Hzero & Hkeys).
  rewrite Hrun in H. apply pair_equal_spec in H as [Ho <-].
  split; [|exact Hkeys]. apply Hzero. by rewrite <- Ho.
Qed.

(** C5, as the code has it. The bulk select has no [WHERE] clause, so the
    sentinel row comes back with the other rows and is hydrated like them:
    after a run of [_startup] that returns (with extensions that do not
    remove cache entries), entity ID 0 is a key of the guild cache and of
    the user cache. *)
Theorem sentinel_id_cached (cogs : list cog) (w : world) :
  (∀ c b, c ∈ cogs →
     keeps_keys b (snd (default fake_cache_setup_method (snd c) b))) →
  result (_startup cogs) w = Ok tt →
  is_Some (guild_settings (self (final (_startup cogs) w)) !! 0) ∧
  is_Some (user_settings (self (final (_startup cogs) w)) !! 0).
Proof.
  intros Hcogs. unfold result, final.
  destruct (_startup cogs w) as [o w'] eqn:Hrun. cbn [fst snd]. intros ->.
  unfold _startup in Hrun.
  rewrite (bind_Ok _ _ _ _ _ (logger_run _ _ _)) in Hrun.
  rewrite (bind_Ok _ _ _ _ _ (emit_run _ _)) in Hrun.
  rewrite (bind_Ok _ _ _ _ _ (cache_clear_run _ _)) in Hrun.
  rewrite (bind_Ok _ _ _ _ _ (emit_run _ _)) in Hrun.
  rewrite (bind_Ok _ _ _ _ _ (cache_clear_run _ _)) in Hrun.
  apply bind_Ok_inv in Hrun as ([] & w2 & _ & Hrun).
  apply bind_Ok_inv in Hrun as ([] & w3 & Hg & Hrun).
  apply bind_Ok_inv in Hrun as ([] & w4 & Hu & Hrun).
  apply bind_Ok_inv in Hrun as ([] & w5 & Hs & Hrun).
  rewrite (bind_Ok _ _ _ _ _ (logger_run _ _ _)) in Hrun.
  apply bind_Ok_inv in Hrun as ([] & w6 & Hw & Hrun).
  rewrite wait_until_ready_run in Hw. apply pair_equal_spec in Hw as [_ <-].
  rewrite disconnect_run in Hrun. apply pair_equal_spec in Hrun as [_ <-].
  cbn [self on_store add_event add_log].
  apply load_settings_Ok in Hg as [Hg0 _].
  apply load_settings_Ok in Hu as [Hu0 Hku].
  pose proof (run_cache_setup_keys _ _ _ _ Hcogs Hs) as Hks.
  split.
  - apply (Hks Guild), (Hku Guild), Hg0.
  - apply (Hks User), Hu0.
Qed.

Lemma sentinel_id_cached_witness :
  is_Some (guild_settings (self (final (_startup []) (dollar_world []))) !! 0) ∧
  is_Some (user_settings (self (final (_startup []) (dollar_world []))) !! 0).
Proof.
  apply (sentinel_id_cached [] (dollar_world [])).
  - intros c b Hin. by apply elem_of_nil in Hin.
  - reflexivity.
Defined.

(** C5 as stated fails: in the two-row scenario hydration completes and
    entity ID 0 is a key of the guild cache, holding the sentinel row. *)
Lemma sentinel_id_is_cached :
  result (startup []) (dollar_world []) = Ok tt ∧
  guild_settings (self (final (startup []) (dollar_world []))) !! 0 ≠ None ∧
  ∃ d, entry Guild 0 (self (final (startup []) (dollar_world []))) = Some d ∧
       d !! "guild_id" = Some (VInt 0) ∧
       d !! "prefix" = Some (VStr "!").
Proof.
  split; [reflexivity|]. split; [vm_compute; discriminate|].
  eexists. split; [vm_compute; reflexivity|].
  split; reflexivity.
Qed.

(** ** Config reload *)

Section ConfigReload.
Variable toml_load : string → exn + dict.

Lemma read_config_file_run path w :
  read_config_file toml_load path w =
    (match files w !! path with
     | None => Raise (FileNotFoundError path)
     | Some text =>
         match toml_load text with
         | inl e => Raise e
         | inr c => Ok c
         end
     end, add_event (EOpen path) w).
Proof.
  unfold read_config_file. rewrite (bind_Ok _ _ _ _ _ (emit_run _ _)).
  cbn [files add_event].
  destruct (files w !! path) as [text|]; [|reflexivity].
  by destruct (toml_load text).
Qed.

Lemma reload_config_run w :
  reload_config toml_load w =
    match parsed_config toml_load w with
    | inr c =>
        (Ok tt,
         on_self (set_config (Some c))
           (add_event (EOpen (config_file (self w)))
              (add_log (INFO, "Reloading config") w)))
    | inl e =>
        (SystemExit 1,
         add_log (CRITICAL, "Couldn't read config file - " +:+ exn_str e)
           (add_event (EOpen (config_file (self w)))
              (add_log (INFO, "Reloading config") w)))
    end.
Proof.
  unfold reload_config, parsed_config.
  rewrite (bind_Ok _ _ _ _ _ (logger_run _ _ _)).
  unfold try_except.
  rewrite (bind_Ok _ _ _ _ _
             (eq_refl : read_self config_file
                          (add_log (INFO, "Reloading config") w) = (Ok _, _))).
  cbn [self add_log].
  pose proof (read_config_file_run (config_file (self w))
                (add_log (INFO, "Reloading config") w)) as Hread.
  cbn [files add_log] in Hread.
  destruct (files w !! config_file (self w)) as [text|].
  - destruct (toml_load text) as [e|c].
    + by rewrite (bind_Raise _ _ _ _ _ Hread).
    + by rewrite (bind_Ok _ _ _ _ _ Hread).
  - by rewrite (bind_Raise _ _ _ _ _ Hread).
Qed.

(** C9. [reload_config] opens the configuration file once. When the file
    is there and parses, the call returns, the bot's configuration is the
    parsed mapping (whatever it was before) and nothing else of the bot
    changes. When the file is missing or does not parse, the call does not
    return: one entry is logged at critical level and the process exits
    with status 1, the file is not read a second time, and the
    configuration in memory is not touched. *)
Theorem reload_config_outcome (w : world) :
  let w' := final (reload_config toml_load) w in
  trace w' = trace w ++ [EOpen (config_file (self w))] ∧
  (∀ c, parsed_config toml_load w = inr c →
     result (reload_config toml_load) w = Ok tt ∧
     config (self w') = Some c ∧
     self w' = set_config (Some c) (self w) ∧
     log w' = log w ++ [(INFO, "Reloading config")]) ∧
  (∀ e, parsed_config toml_load w = inl e →
     result (reload_config toml_load) w = SystemExit 1 ∧
     self w' = self w ∧
     log w' = log w ++ [(INFO, "Reloading config");
                        (CRITICAL, "Couldn't read config file - " +:+ exn_str e)]).
Proof.
  unfold final, result. rewrite reload_config_run.
  destruct (parsed_config toml_load w) as [e|c]; cbn [fst snd].
  - split; [reflexivity|]. split; [discriminate|].
    intros e' [= <-]. split; [reflexivity|]. split; [reflexivity|].
    simpl. by rewrite <- app_assoc.
  - split; [reflexivity|]. split; [|discriminate].
    intros c' [= <-]. by repeat split.
Qed.
End ConfigReload.

Lemma reload_config_outcome_witness :
  result (reload_config toy_toml)
    (fresh_world [] "default_prefix = '$'" []) = Ok tt ∧
  result (reload_config toy_toml)
    (fresh_world [] "default_prefix = " []) = SystemExit 1 ∧
  count_level CRITICAL
    (log (final (reload_config toy_toml)
            (fresh_world [] "default_prefix = " []))) = 1%nat.
Proof.
  pose proof (reload_config_outcome toy_toml
                (fresh_world [] "default_prefix = '$'" [])) as (_ & Hok & _).
  pose proof (reload_config_outcome toy_toml
                (fresh_world [] "default_prefix = " [])) as (_ & _ & Hfail).
  destruct (Hok {[ "default_prefix" := VStr "$"; "owners" := VList [VInt 1] ]})
    as (H1 & _); [reflexivity|].
  destruct (Hfail (TomlDecodeError "invalid TOML")) as (H2 & _ & H3);
    [reflexivity|].
  split; [exact H1|]. split; [exact H2|]. rewrite H3. reflexivity.
Defined.

(** ** [owner_ids] *)

(** C10. Assigning to [owner_ids] runs the setter, which does nothing: the
    assignment returns and leaves the whole bot, and the world around it, as
    they were, so that reading [owner_ids] afterwards gives what it gave
    before, namely the [owners] entry of the loaded configuration. *)
Theorem owner_ids_assignment_ignored (v : value) (b : bot) :
  set_owner_ids v b = (Ok tt, b) ∧
  owner_ids (final (set_owner_ids v) b) = owner_ids b ∧
  (∀ w, lift_self (set_owner_ids v) w = (Ok tt, w)) ∧
  (∀ c owners, config b = Some c → c !! "owners" = Some owners →
     owner_ids (final (set_owner_ids v) b)
       = (Ok owners, final (set_owner_ids v) b)).
Proof.
  split; [reflexivity|]. split; [reflexivity|]. split.
  - intros w. unfold lift_self. simpl. by destruct w.
  - intros c owners Hc Ho. unfold final. simpl.
    unfold owner_ids, config_getitem, row_getitem. by rewrite Hc, Ho.
Qed.

Lemma owner_ids_assignment_ignored_witness :
  owner_ids
    (final (set_owner_ids (VList [VInt 7])) (self (dollar_world [])))
  = (Ok (VList [VInt 1]),
     final (set_owner_ids (VList [VInt 7])) (self (dollar_world []))).
Proof.
  destruct (owner_ids_assignment_ignored (VList [VInt 7])
              (self (dollar_world []))) as (_ & _ & _ & H).
  apply (H {[ "default_prefix" := VStr "$"; "owners" := VList [VInt 1] ]});
    reflexivity.
Defined.

(** ** The two-row scenario *)

Lemma lift_config_getitem_run key w c v :
  config (self w) = Some c → c !! key = Some v →
  lift_self (config_getitem key) w = (Ok v, on_self (λ _, self w) w).
Proof.
  intros Hc Hk. rewrite lift_self_run.
  unfold config_getitem, row_getitem. by rewrite Hc, Hk.
Qed.

Lemma init_run toml_load text c p rows script :
  toml_load text = inr c →
  c !! "default_prefix" = Some p →
  __init__ toml_load "config/config.toml" (fresh_world rows text script)
  = (Ok tt,
     World
       (Bot (Some c) "config/config.toml" {[ "prefix" := p ]} ∅ [] ∅ ∅)
       (Database rows [] ∅ ∅ script None 0 0)
       {[ "config/config.toml" := text ]}
       [(INFO, "Reloading config")]
       [EOpen "config/config.toml"]
       true).
Proof.
  intros Ht Hp. unfold __init__.
  rewrite (bind_Ok _ _ _ _ _ (lift_modify_run _ _)).
  match goal with |- (_ ≫= _) ?x = _ => set (w1 := x) end.
  pose proof (reload_config_run toml_load w1) as Hr.
  assert (parsed_config toml_load w1 = inr c) as Hparsed.
  { unfold parsed_config. by replace (files w1 !! config_file (self w1))
      with (Some text) by reflexivity. }
  rewrite Hparsed in Hr. rewrite (bind_Ok _ _ _ _ _ Hr).
  match goal with
  | |- (_ ≫= _) ?x = _ =>
      rewrite (bind_Ok _ _ _ _ _
                 (lift_config_getitem_run "default_prefix" x c p eq_refl Hp))
  end.
  rewrite (bind_Ok _ _ _ _ _ (lift_modify_run _ _)).
  rewrite (bind_Ok _ _ _ _ _ (lift_modify_run _ _)).
  rewrite (bind_Ok _ _ _ _ _ (lift_modify_run _ _)).
  rewrite lift_modify_run. reflexivity.
Qed.

(** C6, as the code has it. With the guild table holding exactly the rows
    [{guild_id: 0, prefix: '!'}] and [{guild_id: 42, prefix: '?'}] (in either
    order), a bot constructed from a configuration whose [default_prefix] is
    [p] and then started ends up, after hydration, with [p] as the Default
    guild mapping's [prefix] (the constructor seeds it from the
    configuration and the sentinel row's ['!'] does not overwrite it), with
    ['?'] as the [prefix] of entity 42, and with no entry for entity 99,
    whose first access materializes one with [prefix] equal to [p]. *)
Theorem two_rows_scenario (toml_load : string → exn + dict) (text : string)
    (c : dict) (p : value) (rows : list dict) :
  toml_load text = inr c →
  c !! "default_prefix" = Some p →
  rows ≡ₚ [row_0; row_42] →
  let run := (__init__ toml_load "config/config.toml";; startup []) in
  let w' := final run (fresh_world rows text []) in
  result run (fresh_world rows text []) = Ok tt ∧
  DEFAULT_GUILD_SETTINGS (self w') !! "prefix" = Some p ∧
  (∃ d, entry Guild 42 (self w') = Some d ∧ d !! "prefix" = Some (VStr "?")) ∧
  guild_settings (self w') !! 99 = None ∧
  (∃ l b' d,
     cache_getitem Guild 99 (self w') = (Ok l, b') ∧
     heap b' !! l = Some d ∧
     d !! "prefix" = Some p).
Proof.
  intros Ht Hp Hperm run w'.
  assert (run (fresh_world rows text [])
          = startup [] (World
              (Bot (Some c) "config/config.toml" {[ "prefix" := p ]} ∅ [] ∅ ∅)
              (Database rows [] ∅ ∅ [] None 0 0)
              {[ "config/config.toml" := text ]}
              [(INFO, "Reloading config")]
              [EOpen "config/config.toml"]
              true)) as Hrun.
  { unfold run. by rewrite (bind_Ok _ _ _ _ _ (init_run _ _ _ _ _ _ Ht Hp)). }
  unfold w', result, final. rewrite Hrun. clear Hrun w' run.
  symmetry in Hperm. apply Permutation_length_2_inv in Hperm as [->| ->].
  - split; [vm_compute; reflexivity|]. split; [vm_compute; reflexivity|].
    split; [eexists; split; [vm_compute; reflexivity|reflexivity]|].
    split; [vm_compute; reflexivity|].
    match goal with
    | |- ∃ l b' d, cache_getitem Guild 99 ?b = _ ∧ _ =>
        destruct (cache_getitem_new_entry Guild 99 b) as (l & b' & Hget & Hl);
        [vm_compute; reflexivity|]
    end.
    eexists l, b', _. split; [exact Hget|]. split; [exact Hl|].
    vm_compute. reflexivity.
  - split; [vm_compute; reflexivity|]. split; [vm_compute; reflexivity|].
    split; [eexists; split; [vm_compute; reflexivity|reflexivity]|].
    split; [vm_compute; reflexivity|].
    match goal with
    | |- ∃ l b' d, cache_getitem Guild 99 ?b = _ ∧ _ =>
        destruct (cache_getitem_new_entry Guild 99 b) as (l & b' & Hget & Hl);
        [vm_compute; reflexivity|]
    end.
    eexists l, b', _. split; [exact Hget|]. split; [exact Hl|].
    vm_compute. reflexivity.
Qed.

Lemma two_rows_scenario_witness :
  DEFAULT_GUILD_SETTINGS
    (self (final (__init__ toy_toml "config/config.toml";; startup [])
             (fresh_world [row_42; row_0] "default_prefix = '$'" [])))
    !! "prefix" = Some (VStr "$").
Proof.
  pose proof (two_rows_scenario toy_toml "default_prefix = '$'"
                {[ "default_prefix" := VStr "$"; "owners" := VList [VInt 1] ]}
                (VStr "$") [row_42; row_0]) as H.
  cbv zeta in H. destruct H as (_ & H & _).
  - reflexivity.
  - reflexivity.
  - apply perm_swap.
  - exact H.
Defined.

(** C6 as stated fails: with the two rows in the table and a configuration
    whose [default_prefix] is ['$'], hydration completes, the Default guild
    mapping's [prefix] is ['$'] and not ['!'], and so is the [prefix] of the
    entry materialized by the first access for entity 99. *)
Lemma default_prefix_not_from_sentinel :
  table Guild (store (dollar_world [])) = [row_0; row_42] ∧
  result (startup []) (dollar_world []) = Ok tt ∧
  DEFAULT_GUILD_SETTINGS (self (final (startup []) (dollar_world [])))
    !! "prefix" ≠ Some (VStr "!") ∧
  ∃ d,
    entry Guild 99
      (final (cache_getitem Guild 99)
         (self (final (startup []) (dollar_world [])))) = Some d ∧
    d !! "prefix" = Some (VStr "$") ∧
    d !! "prefix" ≠ Some (VStr "!").
Proof.
  split; [reflexivity|]. split; [vm_compute; reflexivity|].
  split; [vm_compute; discriminate|].
  eexists. split; [vm_compute; reflexivity|].
  split; [reflexivity|]. vm_compute. discriminate.
Qed.

(** ** Invariants of the settings and of the startup sequence *)

(** ** Assertions about runs *)

Lemma triple_ret {S A} (P : S → Prop) (a : A) (Q : A → S → Prop) F :
  (∀ s, P s → Q a s) → triple P (mret a : St S A) Q F.
Proof. intros H s Hs. by apply H. Qed.

Lemma triple_bind {S A B} (P : S → Prop) (m : St S A) (k : A → St S B)
    (R : A → S → Prop) (Q : B → S → Prop) (F : S → Prop) :
  triple P m R F → (∀ a, triple (R a) (k a) Q F) → triple P (m ≫= k) Q F.
Proof.
  intros Hm Hk s Hs. specialize (Hm s Hs). st_unfold.
  destruct (m s) as [[a|e|c|] s1]; try done. by apply Hk.
Qed.


Lemma triple_modify {S} (P : S → Prop) (f : S → S) (Q : unit → S → Prop) F :
  (∀ s, P s → Q tt (f s)) → triple P (modify f) Q F.
Proof. intros H s Hs. by apply H. Qed.

Lemma triple_raise {S A} (P : S → Prop) (e : exn) (Q : A → S → Prop) F :
  (∀ s, P s → F s) → triple P (raise e : St S A) Q F.
Proof. intros H s Hs. by apply H. Qed.

Lemma triple_exit {S A} (P : S → Prop) (c : Z) (Q : A → S → Prop) F :
  (∀ s, P s → F s) → triple P (exit c : St S A) Q F.
Proof. intros H s Hs. by apply H. Qed.

Lemma triple_try_except {S A} (P : S → Prop) (m : St S A) (h : exn → St S A)
    (Q : A → S → Prop) (F R : S → Prop) :
  triple P m Q R → (∀ s, R s → F s) → (∀ e, triple R (h e) Q F) →
  triple P (try_except m h) Q F.
Proof.
  intros Hm HR Hh s Hs. specialize (Hm s Hs). unfold try_except.
  destruct (m s) as [[a|e|c|] s1]; auto. by apply Hh.
Qed.

Lemma preserves_for_each {S A} (P : S → Prop) (xs : list A)
    (body : A → St S unit) :
  (∀ x, x ∈ xs → preserves P (body x)) → preserves P (for_each xs body).
Proof.
  induction xs as [|x xs IH]; intros Hbody.
  - by apply triple_ret.
  - cbn [for_each]. apply (triple_bind _ _ _ (λ _, P)).
    + apply Hbody. by left.
    + intros _. apply IH. intros y Hy. apply Hbody. by right.
Qed.

(** Code over the bot's attributes keeps in the world what it keeps in the
    bot. *)
Lemma triple_lift_self {A} (P : bot → Prop) (m : St bot A)
    (Q : A → bot → Prop) (F : bot → Prop) (W : world → Prop) :
  triple P m Q F →
  (∀ w b, W w → W (on_self (λ _, b) w)) →
  triple (λ w, P (self w) ∧ W w) (lift_self m)
    (λ a w, Q a (self w) ∧ W w) (λ w, F (self w) ∧ W w).
Proof.
  intros Hm HW w [Hs Hw]. specialize (Hm (self w) Hs). unfold lift_self.
  destruct (m (self w)) as [[a|e|c|] b]; simpl; auto.
Qed.

Lemma preserves_ret {S A} (P : S → Prop) (a : A) : preserves P (mret a : St S A).
Proof. by apply triple_ret. Qed.

Lemma preserves_bind {S A B} (P : S → Prop) (m : St S A) (k : A → St S B) :
  preserves P m → (∀ a, preserves P (k a)) → preserves P (m ≫= k).
Proof. intros Hm Hk. by apply (triple_bind _ _ _ (λ _, P)). Qed.

Lemma preserves_raise {S A} (P : S → Prop) (e : exn) :
  preserves P (raise e : St S A).
Proof. by apply triple_raise. Qed.

Lemma preserves_modify {S} (P : S → Prop) (f : S → S) :
  (∀ s, P s → P (f s)) → preserves P (modify f).
Proof. intros H. by apply triple_modify. Qed.

Lemma preserves_row_getitem {S} (P : S → Prop) row key :
  preserves P (row_getitem row key : St S value).
Proof.
  unfold row_getitem. destruct (row !! key);
    [apply preserves_ret|apply preserves_raise].
Qed.

Lemma preserves_as_entity_id {S} (P : S → Prop) v :
  preserves P (as_entity_id v : St S Z).
Proof.
  destruct v; simpl; (apply preserves_ret || apply preserves_raise).
Qed.

(** ** The caches as a store of separate dictionaries *)

Lemma cache_set_cache_other t t' c b :
  t' ≠ t → cache t' (set_cache t c b) = cache t' b.
Proof. by destruct t, t'. Qed.

(** What an access does, in one statement. *)
Lemma cache_getitem_effect t i b :
  ∃ l b',
    cache_getitem t i b = (Ok l, b') ∧
    cache t b' !! i = Some l ∧
    (∀ t', DEFAULT t' b' = DEFAULT t' b) ∧
    config b' = config b ∧
    (cache t b !! i = Some l ∧ b' = b
     ∨ cache t b !! i = None ∧ l = length (heap b) ∧
       heap b' = heap b ++ [DEFAULT t b] ∧
       cache t b' = <[i := l]> (cache t b) ∧
       ∀ t', t' ≠ t → cache t' b' = cache t' b).
Proof.
  destruct (cache t b !! i) as [l|] eqn:Hi.
  - exists l, b. split; [by apply cache_getitem_present|]. by eauto 10.
  - eexists _, _. split; [by apply cache_getitem_absent|].
    split; [by rewrite cache_set_cache, lookup_insert_eq|].
    split; [intros t'; by rewrite DEFAULT_set_cache, DEFAULT_set_heap|].
    split; [by destruct t|]. right.
    split; [done|]. split; [done|].
    split; [by rewrite heap_set_cache, heap_set_heap, deepcopy_dict_id|].
    split; [by rewrite cache_set_cache|].
    intros t' Hne. by rewrite cache_set_cache_other, cache_set_heap.
Qed.

Lemma wf_cache_getitem t i : preserves wf_bot (cache_getitem t i).
Proof.
  intros b [Hlt Hinj].
  destruct (cache_getitem_effect t i b)
    as (l & b' & -> & _ & _ & _ & [[_ ->]|(Hnone & -> & Hh & Hc & Hother)]);
    [done|].
  assert (Hcase : ∀ t' j l', cache t' b' !! j = Some l' →
            (t' = t ∧ j = i ∧ l' = length (heap b)) ∨ cache t' b !! j = Some l').
  { intros t' j l' Hj. destruct (decide (t' = t)) as [->|Hne].
    - rewrite Hc in Hj. destruct (decide (i = j)) as [->|Hij].
      + rewrite lookup_insert_eq in Hj. left. by inversion Hj.
      + rewrite lookup_insert_ne in Hj by done. by right.
    - rewrite (Hother t' Hne) in Hj. by right. }
  split.
  - intros t' j l' Hj. rewrite Hh, length_app. simpl.
    destruct (Hcase t' j l' Hj) as [(_ & _ & ->)|Hold]; [lia|].
    specialize (Hlt _ _ _ Hold). lia.
  - intros t1 t2 j1 j2 l' H1 H2.
    destruct (Hcase _ _ _ H1) as [(-> & -> & ->)|Hold1];
      destruct (Hcase _ _ _ H2) as [(-> & -> & E)|Hold2]; try done.
    + specialize (Hlt _ _ _ Hold2). lia.
    + specialize (Hlt _ _ _ Hold1). lia.
    + by apply (Hinj _ _ _ _ _ Hold1 Hold2).
Qed.

Lemma wf_dict_setitem l key v : preserves wf_bot (dict_setitem l key v).
Proof.
  apply preserves_modify. intros b [Hlt Hinj]. split.
  - intros t i l' Hi. rewrite cache_set_heap in Hi.
    rewrite heap_set_heap, length_alter. by apply (Hlt t i).
  - intros t t' i j l' Hi Hj. rewrite cache_set_heap in Hi, Hj.
    by apply (Hinj _ _ _ _ _ Hi Hj).
Qed.

Lemma wf_hydrate_item t row item : preserves wf_bot (hydrate_item t row item).
Proof.
  destruct item as [key v]. unfold hydrate_item.
  apply preserves_bind; [apply preserves_row_getitem|intros idv].
  apply preserves_bind; [apply preserves_as_entity_id|intros i].
  apply preserves_bind; [apply wf_cache_getitem|intros l].
  apply wf_dict_setitem.
Qed.

Lemma wf_hydrate_entities t rows : preserves wf_bot (hydrate_entities t rows).
Proof.
  apply preserves_for_each. intros row _.
  apply preserves_for_each. intros item _. apply wf_hydrate_item.
Qed.

Lemma wf_hydrate_defaults t row : preserves wf_bot (hydrate_defaults t row).
Proof.
  apply preserves_for_each. intros [k v] _. apply preserves_modify.
  intros b [Hlt Hinj]. split.
  - intros t' i l Hi. rewrite cache_set_DEFAULT in Hi.
    rewrite heap_set_DEFAULT. by apply (Hlt t' i).
  - intros t1 t2 i j l Hi Hj. rewrite cache_set_DEFAULT in Hi, Hj.
    by apply (Hinj _ _ _ _ _ Hi Hj).
Qed.

Lemma wf_cache_clear t : preserves wf_bot (cache_clear t).
Proof.
  apply preserves_modify. intros b [Hlt Hinj].
  assert (Hsub : ∀ t' i l, cache t' (set_cache t ∅ b) !! i = Some l →
                           cache t' b !! i = Some l).
  { intros t' i l. destruct (decide (t' = t)) as [->|Hne].
    - by rewrite cache_set_cache, lookup_empty.
    - by rewrite cache_set_cache_other. }
  split.
  - intros t' i l Hi. rewrite heap_set_cache. by apply (Hlt t' i), Hsub.
  - intros t1 t2 i j l Hi Hj. apply (Hinj _ _ _ _ l); by apply Hsub.
Qed.

Lemma entries_lookup t i b : entries t b !! i = entry t i b.
Proof. unfold entries, entry. by rewrite lookup_omap. Qed.

(** Updating in place the dictionary of one entity. *)
Lemma entries_alter t i l f b :
  wf_bot b → cache t b !! i = Some l →
  entries t (set_heap (alter f l (heap b)) b) = alter f i (entries t b) ∧
  ∀ t', t' ≠ t →
    entries t' (set_heap (alter f l (heap b)) b) = entries t' b.
Proof.
  intros [Hlt Hinj] Hi. split.
  - apply map_eq. intros j. rewrite lookup_alter, !entries_lookup.
    unfold entry. rewrite cache_set_heap, heap_set_heap.
    destruct (cache t b !! j) as [l'|] eqn:Hj; simpl.
    + case_decide as Hij.
      * subst j. assert (l' = l) as -> by congruence.
        by rewrite list_lookup_alter_eq, Hi.
      * rewrite list_lookup_alter_ne; [done|]. intros ->.
        by destruct (Hinj _ _ _ _ _ Hi Hj) as [_ ?].
    + case_decide as Hij; [subst; congruence|done].
  - intros t' Hne. apply map_eq. intros j. rewrite !entries_lookup.
    unfold entry. rewrite cache_set_heap, heap_set_heap.
    destruct (cache t' b !! j) as [l'|] eqn:Hj; simpl; [|done].
    rewrite list_lookup_alter_ne; [done|]. intros ->.
    by destruct (Hinj _ _ _ _ _ Hi Hj) as [? _].
Qed.

(** Giving an entity that has none a new dictionary. *)
Lemma entries_alloc t i d b :
  wf_bot b → cache t b !! i = None →
  entries t (set_cache t (<[i := length (heap b)]> (cache t b))
               (set_heap (heap b ++ [d]) b))
  = <[i := d]> (entries t b) ∧
  ∀ t', t' ≠ t →
    entries t' (set_cache t (<[i := length (heap b)]> (cache t b))
                  (set_heap (heap b ++ [d]) b))
    = entries t' b.
Proof.
  intros [Hlt Hinj] Hi. split.
  - apply map_eq. intros j. rewrite !entries_lookup. unfold entry.
    rewrite cache_set_cache, heap_set_cache, heap_set_heap.
    destruct (decide (i = j)) as [->|Hij].
    + rewrite !lookup_insert_eq. simpl.
      rewrite lookup_app_r by lia. by rewrite Nat.sub_diag.
    + rewrite !lookup_insert_ne by done. rewrite entries_lookup.
      unfold entry. destruct (cache t b !! j) as [l'|] eqn:Hj; simpl; [|done].
      apply lookup_app_l. by apply (Hlt t j).
  - intros t' Hne. apply map_eq. intros j. rewrite !entries_lookup.
    unfold entry.
    rewrite cache_set_cache_other, cache_set_heap, heap_set_cache,
      heap_set_heap by done.
    destruct (cache t' b !! j) as [l'|] eqn:Hj; simpl; [|done].
    apply lookup_app_l. by apply (Hlt t' j).
Qed.

Lemma settings_setitem_run t i key v b :
  settings_setitem t i key v b =
    (Ok tt,
     match cache t b !! i with
     | Some l => set_heap (alter (<[key := v]>) l (heap b)) b
     | None =>
         set_cache t (<[i := length (heap b)]> (cache t b))
           (set_heap (heap b ++ [<[key := v]> (DEFAULT t b)]) b)
     end).
Proof.
  unfold settings_setitem. destruct (cache t b !! i) as [l|] eqn:Hi.
  - by rewrite (bind_Ok _ _ _ _ _ (cache_getitem_present _ _ _ _ Hi)).
  - rewrite (bind_Ok _ _ _ _ _ (cache_getitem_absent _ _ _ Hi)).
    unfold dict_setitem, modify. f_equal.
    rewrite heap_set_cache, heap_set_heap, set_heap_set_cache, set_heap_twice.
    rewrite alter_app_r_alt by lia. rewrite Nat.sub_diag. simpl.
    by rewrite deepcopy_dict_id.
Qed.

Lemma wf_settings_setitem t i key v : preserves wf_bot (settings_setitem t i key v).
Proof.
  apply preserves_bind; [apply wf_cache_getitem|intros l].
  apply wf_dict_setitem.
Qed.

Lemma wf_entry_is_Some t i l b :
  wf_bot b → cache t b !! i = Some l → ∃ d, heap b !! l = Some d.
Proof.
  intros [Hlt _] Hi. apply lookup_lt_is_Some. by apply (Hlt t i).
Qed.

Lemma wf_bot_no_entries b :
  (∀ t, cache t b = ∅) → wf_bot b.
Proof.
  intros He. split.
  - intros t i l. by rewrite He, lookup_empty.
  - intros t t' i j l. by rewrite He, lookup_empty.
Qed.

(** X1. In a bot whose cache entries are separate dictionaries, writing one
    key of one entity's settings ([self.guild_settings[i][key] = v])
    returns, changes that entity's mapping at that key only (materializing
    it from the Default mapping first when the entity has none), and leaves
    every other entity's mapping, in either cache, and both Default mappings
    as they were; the entries are still separate dictionaries afterwards. *)
Theorem settings_setitem_isolated (t : table_kind) (i : Z) (key : string)
    (v : value) (b : bot) :
  wf_bot b →
  ∃ b',
    settings_setitem t i key v b = (Ok tt, b') ∧
    wf_bot b' ∧
    entry t i b' = Some (<[key := v]> (default (DEFAULT t b) (entry t i b))) ∧
    (∀ t' j, (t', j) ≠ (t, i) → entry t' j b' = entry t' j b) ∧
    (∀ t', DEFAULT t' b' = DEFAULT t' b).
Proof.
  intros Hwf. pose proof (wf_settings_setitem t i key v b Hwf) as Hwf'.
  rewrite settings_setitem_run in *. eexists. split; [reflexivity|].
  split; [exact Hwf'|]. clear Hwf'.
  destruct (cache t b !! i) as [l|] eqn:Hi.
  - destruct (entries_alter t i l (<[key := v]>) b Hwf Hi) as [Ht Hother].
    destruct (wf_entry_is_Some t i l b Hwf Hi) as [d Hd].
    assert (entry t i b = Some d) as Hentry by (unfold entry; by rewrite Hi).
    split; [|split].
    + rewrite <- entries_lookup, Ht, lookup_alter_eq, entries_lookup, Hentry.
      done.
    + intros t' j Hne. rewrite <- !entries_lookup.
      destruct (decide (t' = t)) as [->|Htt].
      * rewrite Ht, lookup_alter_ne; [done|]. congruence.
      * by rewrite Hother.
    + intros t'. by rewrite DEFAULT_set_heap.
  - destruct (entries_alloc t i (<[key := v]> (DEFAULT t b)) b Hwf Hi)
      as [Ht Hother].
    assert (entry t i b = None) as Hentry by (unfold entry; by rewrite Hi).
    split; [|split].
    + by rewrite <- entries_lookup, Ht, lookup_insert_eq, Hentry.
    + intros t' j Hne. rewrite <- !entries_lookup.
      destruct (decide (t' = t)) as [->|Htt].
      * rewrite Ht, lookup_insert_ne; [done|]. congruence.
      * by rewrite Hother.
    + intros t'. by rewrite DEFAULT_set_cache, DEFAULT_set_heap.
Qed.

Lemma settings_setitem_isolated_witness :
  ∃ b',
    settings_setitem Guild 7 "prefix" (VStr "?") (bot_with_prefix "!")
      = (Ok tt, b') ∧
    entry Guild 7 b' = Some {[ "prefix" := VStr "?" ]} ∧
    entry Guild 8 b' = None ∧
    entry User 7 b' = None ∧
    DEFAULT Guild b' = {[ "prefix" := VStr "!" ]}.
Proof.
  destruct (settings_setitem_isolated Guild 7 "prefix" (VStr "?")
              (bot_with_prefix "!"))
    as (b' & Hrun & _ & He & Ho & Hd).
  - apply wf_bot_no_entries. by intros [].
  - exists b'. split; [exact Hrun|]. split; [|split; [|split]].
    + rewrite He. reflexivity.
    + rewrite Ho; [reflexivity|discriminate].
    + rewrite Ho; [reflexivity|discriminate].
    + rewrite Hd. reflexivity.
Defined.

Lemma hydrate_row_refines t r i b :
  wf_bot b → r !! id_column t = Some (VInt i) →
  ∃ b',
    hydrate_row t r b = (Ok tt, b') ∧
    wf_bot b' ∧
    entries t b' = hydrate_step t (DEFAULT t b) (entries t b) r ∧
    (∀ t', t' ≠ t → entries t' b' = entries t' b) ∧
    (∀ t', DEFAULT t' b' = DEFAULT t' b).
Proof.
  intros Hwf Hid.
  assert (wf_bot (snd (hydrate_row t r b))) as Hwf'.
  { pose proof (preserves_for_each wf_bot (map_to_list r) (hydrate_item t r)
                  (λ item _, wf_hydrate_item t r item) b Hwf) as H.
    unfold hydrate_row.
    by destruct (for_each (map_to_list r) (hydrate_item t r) b)
      as [[[]| | |] ?]. }
  rewrite (hydrate_row_run t r i b Hid) in *. eexists.
  split; [reflexivity|]. split; [exact Hwf'|]. clear Hwf'.
  unfold hydrate_step. rewrite Hid, entries_lookup.
  destruct (cache t b !! i) as [l|] eqn:Hi.
  - destruct (entries_alter t i l (λ d, r ∪ d) b Hwf Hi) as [Ht Hother].
    destruct (wf_entry_is_Some t i l b Hwf Hi) as [d Hd].
    assert (entry t i b = Some d) as Hentry by (unfold entry; by rewrite Hi).
    split; [|split; [exact Hother|]].
    + rewrite Ht, Hentry. simpl. apply map_eq. intros j.
      rewrite lookup_alter, lookup_insert. case_decide; [|done].
      subst j. by rewrite entries_lookup, Hentry.
    + intros t'. by rewrite DEFAULT_set_heap.
  - destruct (entries_alloc t i (r ∪ DEFAULT t b) b Hwf Hi) as [Ht Hother].
    assert (entry t i b = None) as -> by (unfold entry; by rewrite Hi).
    split; [exact Ht|]. split; [exact Hother|].
    intros t'. by rewrite DEFAULT_set_cache, DEFAULT_set_heap.
Qed.

(** The row loop computes, on the dictionaries the caches hold, exactly the
    fold [hydrated]. *)
Lemma hydrate_entities_as_fold (t : table_kind) (rows : list dict) (b : bot) :
  wf_bot b →
  (∀ r, r ∈ rows → ∃ i, r !! id_column t = Some (VInt i)) →
  ∃ b',
    hydrate_entities t rows b = (Ok tt, b') ∧
    wf_bot b' ∧
    entries t b' = hydrated t (DEFAULT t b) rows (entries t b) ∧
    (∀ t', t' ≠ t → entries t' b' = entries t' b) ∧
    (∀ t', DEFAULT t' b' = DEFAULT t' b).
Proof.
  revert b. induction rows as [|r rows IH]; intros b Hwf Hrows.
  - exists b. split; [done|]. split; [done|]. split; [done|]. by split.
  - destruct (Hrows r) as [i Hid]; [by left|].
    destruct (hydrate_row_refines t r i b Hwf Hid)
      as (b1 & Hrun1 & Hwf1 & He1 & Ho1 & Hd1).
    destruct (IH b1 Hwf1) as (b' & Hrun & Hwf' & He & Ho & Hd).
    { intros r' Hin. apply Hrows. by right. }
    exists b'. split; [|split; [done|split; [|split]]].
    + unfold hydrate_entities in *. cbn [for_each].
      by rewrite (bind_Ok _ _ _ _ _ Hrun1).
    + by rewrite He, Hd1, He1.
    + intros t' Hne. by rewrite Ho, Ho1.
    + intros t'. by rewrite Hd, Hd1.
Qed.

Lemma hydrated_lookup t D rows : ∀ m i,
  hydrated t D rows m !! i = foldl (lay_row D) (m !! i) (rows_with_id t i rows).
Proof.
  unfold hydrated, rows_with_id.
  induction rows as [|r rows IH]; intros m i; [done|].
  cbn [foldl]. rewrite IH. unfold hydrate_step, has_id.
  destruct (r !! id_column t) as [[ | ? | j | ? | ? ]|] eqn:Hid;
    try (rewrite filter_cons_False; [done|]; unfold has_id; by rewrite Hid).
  destruct (decide (j = i)) as [->|Hne].
  - rewrite filter_cons_True; [|unfold has_id; rewrite Hid;
                                 by apply bool_decide_eq_true_2].
    cbn [foldl]. by rewrite lookup_insert_eq.
  - rewrite filter_cons_False; [|unfold has_id; rewrite Hid;
                                  by rewrite bool_decide_eq_false_2].
    by rewrite lookup_insert_ne.
Qed.

(** X2. Per-entity hydration, with separate dictionaries to start from and
    rows that all carry an integer ID (distinct or not, cached already or
    not), returns, and the mapping it leaves for an entity is what laying
    that entity's rows, in table order, over its previous mapping (or over
    the Default mapping when it had none) gives; an entity without rows
    keeps what it had, and the other cache and both Default mappings are
    untouched. *)
Theorem hydrate_entities_by_entity (t : table_kind) (rows : list dict) (b : bot) :
  wf_bot b →
  (∀ r, r ∈ rows → ∃ i, r !! id_column t = Some (VInt i)) →
  ∃ b',
    hydrate_entities t rows b = (Ok tt, b') ∧
    wf_bot b' ∧
    (∀ i, entry t i b'
          = foldl (lay_row (DEFAULT t b)) (entry t i b) (rows_with_id t i rows)) ∧
    (∀ t' i, t' ≠ t → entry t' i b' = entry t' i b) ∧
    (∀ t', DEFAULT t' b' = DEFAULT t' b).
Proof.
  intros Hwf Hrows.
  destruct (hydrate_entities_as_fold t rows b Hwf Hrows)
    as (b' & Hrun & Hwf' & He & Ho & Hd).
  exists b'. split; [done|]. split; [done|]. split; [|split; [|done]].
  - intros i. by rewrite <- !entries_lookup, He, hydrated_lookup.
  - intros t' i Hne. by rewrite <- !entries_lookup, Ho.
Qed.

Lemma hydrate_entities_by_entity_witness :
  ∃ b',
    hydrate_entities Guild [row_0; row_42] (bot_with_prefix "$") = (Ok tt, b') ∧
    entry Guild 42 b' = Some row_42 ∧
    entry Guild 7 b' = None ∧
    entry User 42 b' = None.
Proof.
  destruct (hydrate_entities_by_entity Guild [row_0; row_42]
              (bot_with_prefix "$"))
    as (b' & Hrun & _ & He & Ho & _).
  - apply wf_bot_no_entries. by intros [].
  - intros r Hin.
    apply elem_of_cons in Hin as [->|Hin]; [by exists 0|].
    apply elem_of_cons in Hin as [->|Hin]; [by exists 42|].
    by apply elem_of_nil in Hin.
  - exists b'. split; [exact Hrun|]. split; [|split].
    + rewrite He. reflexivity.
    + rewrite He. reflexivity.
    + rewrite Ho; [reflexivity|discriminate].
Defined.

Lemma lay_rows_keep D (rs : list dict) (c : string) (v : value) : ∀ d,
  d !! c = Some v →
  (∀ r, r ∈ rs → r !! c = None) →
  ∃ d', foldl (lay_row D) (Some d) rs = Some d' ∧ d' !! c = Some v.
Proof.
  induction rs as [|r rs IH]; intros d Hd Hrs; [by exists d|].
  cbn [foldl]. unfold lay_row at 2. simpl. apply IH.
  - rewrite lookup_union_r; [done|]. apply Hrs. by left.
  - intros r' Hin. apply Hrs. by right.
Qed.

(** X3. When several rows carry the same ID, the last one that has a column
    decides it: if row [r] of entity [i] gives column [c] the value [v] and
    no later row of that entity has column [c], then after hydration the
    entity's mapping has [v] at [c], whatever earlier rows said. *)
Theorem hydrate_entities_last_row_wins (t : table_kind) (pre post : list dict)
    (r : dict) (i : Z) (c : string) (v : value) (b : bot) :
  wf_bot b →
  (∀ r', r' ∈ pre ++ r :: post → ∃ j, r' !! id_column t = Some (VInt j)) →
  r !! id_column t = Some (VInt i) →
  r !! c = Some v →
  (∀ r', r' ∈ post → r' !! id_column t = Some (VInt i) → r' !! c = None) →
  ∃ b' d,
    hydrate_entities t (pre ++ r :: post) b = (Ok tt, b') ∧
    entry t i b' = Some d ∧
    d !! c = Some v.
Proof.
  intros Hwf Hrows Hid Hc Hpost.
  destruct (hydrate_entities_as_fold t _ b Hwf Hrows)
    as (b' & Hrun & _ & He & _ & _).
  assert (has_id t i r = true) as Hr.
  { unfold has_id. rewrite Hid. by apply bool_decide_eq_true_2. }
  destruct (lay_rows_keep (DEFAULT t b) (rows_with_id t i post) c v
              (r ∪ default (DEFAULT t b)
                     (foldl (lay_row (DEFAULT t b)) (entry t i b)
                        (rows_with_id t i pre))))
    as (d & Hd & Hdc).
  { by apply lookup_union_Some_l. }
  { intros r' Hin. apply list_elem_of_filter in Hin as [Hr' Hin].
    apply Hpost; [done|]. unfold has_id in Hr'.
    destruct (r' !! id_column t) as [[ | ? | j | ? | ? ]|]; try done.
    by apply bool_decide_eq_true_1 in Hr' as ->. }
  exists b', d. split; [done|]. split; [|done].
  rewrite <- entries_lookup, He, hydrated_lookup, entries_lookup.
  unfold rows_with_id in *. rewrite filter_app, filter_cons_True by done.
  by rewrite foldl_app.
Qed.

Lemma hydrate_entities_last_row_wins_witness :
  ∃ b' d,
    hydrate_entities Guild
      ([ {[ "guild_id" := VInt 42; "prefix" := VStr "!" ]} ]
       ++ row_42 :: [ {[ "guild_id" := VInt 42; "lang" := VStr "en" ]}; row_0 ])
      (bot_with_prefix "$") = (Ok tt, b') ∧
    entry Guild 42 b' = Some d ∧
    d !! "prefix" = Some (VStr "?").
Proof.
  apply (hydrate_entities_last_row_wins Guild
           [ {[ "guild_id" := VInt 42; "prefix" := VStr "!" ]} ]
           [ {[ "guild_id" := VInt 42; "lang" := VStr "en" ]}; row_0 ]
           row_42 42 "prefix" (VStr "?") (bot_with_prefix "$")).
  - apply wf_bot_no_entries. by intros [].
  - intros r Hin. simpl in Hin.
    apply elem_of_cons in Hin as [->|Hin]; [by exists 42|].
    apply elem_of_cons in Hin as [->|Hin]; [by exists 42|].
    apply elem_of_cons in Hin as [->|Hin]; [by exists 42|].
    apply elem_of_cons in Hin as [->|Hin]; [by exists 0|].
    by apply elem_of_nil in Hin.
  - reflexivity.
  - reflexivity.
  - intros r Hin Hid.
    apply elem_of_cons in Hin as [->|Hin]; [reflexivity|].
    apply elem_of_cons in Hin as [->|Hin]; [discriminate|].
    by apply elem_of_nil in Hin.
Defined.

(** ** Invariants of hydration *)











(** *** What a statement does to the tables *)

Lemma db_call_effect q w :
  self (snd (db_call q w)) = self w ∧
  (∀ t, t ≠ sql_table q →
     table t (store (snd (db_call q w))) = table t (store w)) ∧
  (∀ r, r ∈ table (sql_table q) (store w) →
        r ∈ table (sql_table q) (store (snd (db_call q w)))) ∧
  (∀ rows, fst (db_call q w) = Ok rows →
     match q with
     | SelectAll t => rows = table t (store (snd (db_call q w)))
     | _ => True
     end ∧
     match q with
     | InsertSentinel t => True
     | _ => table (sql_table q) (store (snd (db_call q w)))
            = table (sql_table q) (store w)
     end).
Proof.
  unfold db_call. rewrite (bind_Ok _ _ _ _ _ (emit_run _ _)).
  destruct w as [b d fs lg tr rdy]. destruct d as [gt ut gd ud sc ce oc er].
  cbn [store add_event script].
  destruct sc as [|[msg|] sc]; destruct q as [[]|[]|[]]; simpl;
    (split; [reflexivity|]); (split; [by intros []|]);
    (split; [intros r Hr; rewrite ?elem_of_app; auto|]);
    try (intros rows [= <-]); try done.
Qed.

(** *** One table *)

Section LoadInvariant.
Variable t : table_kind.
Variable R : world → Prop.
Hypothesis R_same : ∀ w w',
  self w' = self w →
  (∀ t', t' ≠ t → table t' (store w') = table t' (store w)) →
  R w → R w'.
Hypothesis R_defaults : ∀ row w,
  R w → R (on_self (λ _, snd (hydrate_defaults t row (self w))) w).
Hypothesis R_entities : ∀ data w,
  R w → R (on_self (λ _, snd (hydrate_entities t data (self w))) w).



Lemma loaded_so_far_same w w' :
  self w' = self w →
  (∀ t', table t' (store w') = table t' (store w)) →
  loaded_so_far t R w → loaded_so_far t R w'.
Proof.
  intros Hs Ht (Hc & Hf & HR). split; [by rewrite Hs|]. split.
  - intros i Hi. rewrite Hs in Hi. destruct (Hf i Hi) as (r & Hr & Hid).
    exists r. by rewrite Ht.
  - apply (R_same w); [done| |done]. intros t' _. apply Ht.
Qed.




End LoadInvariant.

(** *** The whole sequence *)

Lemma preserves_snd {S A} (P : S → Prop) (m : St S A) s :
  preserves P m → P s → P (snd (m s)).
Proof.
  intros Hm Hs. specialize (Hm s Hs). by destruct (m s) as [[a|e|c|] s'].
Qed.

Lemma preserves_of_snd {S A} (P : S → Prop) (m : St S A) :
  (∀ s, P s → P (snd (m s))) → preserves P m.
Proof.
  intros H s Hs. specialize (H s Hs). by destruct (m s) as [[a|e|c|] s'].
Qed.

Lemma settings_pred_same_view {A} (I : world → Prop) (m : St world A) :
  settings_pred I → same_view m → preserves I m.
Proof.
  intros HI Hm. apply preserves_of_snd. intros w Hw.
  destruct (Hm w) as [Hs Ht]. apply (HI w); [by rewrite Hs..|done|done].
Qed.

Lemma same_view_emit e : same_view (emit e).
Proof. by intros w. Qed.

Lemma same_view_logger lvl msg : same_view (logger lvl msg).
Proof. by intros w. Qed.

Lemma same_view_get_connection : same_view get_connection.
Proof.
  intros w. unfold get_connection. rewrite (bind_Ok _ _ _ _ _ (emit_run _ _)).
  destruct w as [b d fs lg tr rdy]. destruct d as [gt ut gd ud sc ce oc er].
  simpl. destruct ce; simpl; (split; [done|by intros []]).
Qed.

Lemma same_view_wait_until_ready : same_view wait_until_ready.
Proof. intros w. by rewrite wait_until_ready_run. Qed.

Lemma same_view_disconnect : same_view disconnect.
Proof.
  intros w. rewrite disconnect_run. split; [done|].
  intros []; by destruct w as [? [] ? ? ? ?].
Qed.

Lemma _startup_cleared cogs w : _startup cogs w = startup_tail cogs (cleared w).
Proof.
  unfold _startup.
  rewrite (bind_Ok _ _ _ _ _ (logger_run _ _ _)).
  rewrite (bind_Ok _ _ _ _ _ (emit_run _ _)).
  rewrite (bind_Ok _ _ _ _ _ (cache_clear_run _ _)).
  rewrite (bind_Ok _ _ _ _ _ (emit_run _ _)).
  rewrite (bind_Ok _ _ _ _ _ (cache_clear_run _ _)).
  reflexivity.
Qed.

Lemma same_view_db_call_self (P : bot → Prop) q :
  preserves (λ w, P (self w)) (db_call q).
Proof.
  apply preserves_of_snd. intros w Hw.
  destruct (db_call_effect q w) as (Hs & _). by rewrite Hs.
Qed.

Lemma preserves_self_same_view {A} (P : bot → Prop) (m : St world A) :
  same_view m → preserves (λ w, P (self w)) m.
Proof.
  intros Hm. apply preserves_of_snd. intros w Hw.
  destruct (Hm w) as [Hs _]. by rewrite Hs.
Qed.

Lemma preserves_lift_self {A} (P : bot → Prop) (m : St bot A) :
  preserves P m → preserves (λ w, P (self w)) (lift_self m).
Proof.
  intros Hm. apply preserves_of_snd. intros w Hw. rewrite lift_self_run.
  change (P (snd (m (self w)))). by apply preserves_snd.
Qed.

Lemma preserves_exit {S A} (P : S → Prop) (c : Z) : preserves P (exit c : St S A).
Proof. by apply triple_exit. Qed.

Lemma preserves_try_except {S A} (P : S → Prop) (m : St S A) (h : exn → St S A) :
  preserves P m → (∀ e, preserves P (h e)) → preserves P (try_except m h).
Proof. intros Hm Hh. by apply (triple_try_except _ _ _ _ _ P). Qed.

(** A pass over one table keeps what the two loops keep. *)
Lemma preserves_load_settings (P : bot → Prop) t :
  (∀ row, preserves P (hydrate_defaults t row)) →
  (∀ data, preserves P (hydrate_entities t data)) →
  preserves (λ w, P (self w)) (load_settings t).
Proof.
  intros Hd He. rewrite load_settings_unfold.
  apply preserves_bind; [apply same_view_db_call_self|intros rows].
  apply preserves_bind; [|intros rows'].
  { case_bool_decide; [apply same_view_db_call_self|apply preserves_ret]. }
  apply preserves_bind; [|intros row0].
  { destruct rows'; [apply preserves_raise|apply preserves_ret]. }
  unfold hydrate_from.
  apply preserves_bind;
    [apply preserves_self_same_view, same_view_emit|intros _].
  apply preserves_bind; [by apply preserves_lift_self|intros _].
  apply preserves_bind; [|intros data].
  { unfold _get_all_table_data, _run_sql_exit_on_error.
    apply preserves_try_except; [apply same_view_db_call_self|intros e].
    apply preserves_bind;
      [apply preserves_self_same_view, same_view_logger|intros _].
    apply preserves_exit. }
  apply preserves_bind;
    [apply preserves_self_same_view, same_view_emit|intros _].
  by apply preserves_lift_self.
Qed.

Lemma keeps_settings_fake : keeps_settings fake_cache_setup_method.
Proof. by intros b. Qed.

(** Extensions that leave the settings alone keep every assertion about the
    settings and the tables. *)
Lemma preserves_run_cache_setup (I : world → Prop) cogs :
  settings_pred I →
  (∀ c, c ∈ cogs → keeps_settings (cache_setup_of c)) →
  preserves I (run_cache_setup cogs).
Proof.
  intros HI Hcogs. apply preserves_for_each. intros [name setup] Hin.
  apply preserves_bind;
    [apply settings_pred_same_view; [done|apply same_view_emit]|intros _].
  apply preserves_of_snd. intros w Hw. rewrite lift_self_run. cbn [snd].
  destruct (Hcogs _ Hin (self w)) as (Hh & Hc & Hd).
  by apply (HI w).
Qed.

Lemma preserves_finish (I : world → Prop) cogs :
  settings_pred I →
  (∀ c, c ∈ cogs → keeps_settings (cache_setup_of c)) →
  preserves I
    (run_cache_setup cogs;;
     logger DEBUG "Waiting until ready before completing startup method.";;
     wait_until_ready;;
     disconnect).
Proof.
  intros HI Hcogs.
  apply preserves_bind; [by apply preserves_run_cache_setup|intros _].
  apply preserves_bind;
    [apply settings_pred_same_view; [done|apply same_view_logger]|intros _].
  apply preserves_bind;
    [apply settings_pred_same_view; [done|apply same_view_wait_until_ready]
    |intros _].
  apply settings_pred_same_view; [done|apply same_view_disconnect].
Qed.

Lemma settings_pred_self (P : bot → Prop) :
  (∀ b b', heap b' = heap b → (∀ t, cache t b' = cache t b) →
           (∀ t, DEFAULT t b' = DEFAULT t b) → P b → P b') →
  settings_pred (λ w, P (self w)).
Proof. intros HP w w' Hh Hc Hd _ Hw. by apply (HP (self w)). Qed.

(** What the loops keep, the whole of [startup_tail] keeps. *)
Lemma preserves_startup_tail (P : bot → Prop) cogs :
  settings_pred (λ w, P (self w)) →
  (∀ t row, preserves P (hydrate_defaults t row)) →
  (∀ t data, preserves P (hydrate_entities t data)) →
  (∀ c, c ∈ cogs → keeps_settings (cache_setup_of c)) →
  preserves (λ w, P (self w)) (startup_tail cogs).
Proof.
  intros HP Hd He Hcogs. unfold startup_tail.
  apply preserves_bind;
    [apply preserves_self_same_view, same_view_get_connection|intros _].
  apply preserves_bind; [by apply preserves_load_settings|intros _].
  apply preserves_bind; [by apply preserves_load_settings|intros _].
  by apply preserves_finish.
Qed.

(** The handler of [startup] touches neither the settings nor the tables. *)
Lemma startup_final (I : world → Prop) cogs w :
  settings_pred I →
  I (final (_startup cogs) w) → I (final (startup cogs) w).
Proof.
  intros HI. unfold final, startup, try_except.
  destruct (_startup cogs w) as [[[]|e|c|] w']; try done.
  cbn [snd]. intros Hw.
  rewrite (bind_Ok _ _ _ _ _ (logger_run _ _ _)). by apply (HI w').
Qed.


Lemma wf_cleared b : wf_bot (set_cache User ∅ (set_cache Guild ∅ b)).
Proof.
  split.
  - intros [] i l Hi; simpl in Hi; by rewrite lookup_empty in Hi.
  - intros [] ? i ? l Hi; simpl in Hi; by rewrite lookup_empty in Hi.
Qed.

Lemma settings_pred_wf : settings_pred (λ w, wf_bot (self w)).
Proof.
  apply settings_pred_self. intros b b' Hh Hc _ [Hlt Hinj]. split.
  - intros t i l. rewrite Hc, Hh. apply Hlt.
  - intros t t' i j l. rewrite !Hc. apply Hinj.
Qed.

(** X4. However a run of [startup] ends, and whatever state it started
    from, it leaves caches whose entries are separate, existing
    dictionaries: no two entities, of either cache, share one (extensions
    being assumed to leave the settings alone). *)
Theorem startup_separate_dictionaries (cogs : list cog) (w : world) :
  (∀ c, c ∈ cogs → keeps_settings (cache_setup_of c)) →
  wf_bot (self (final (startup cogs) w)).
Proof.
  intros Hcogs.
  apply (startup_final (λ w, wf_bot (self w))); [apply settings_pred_wf|].
  unfold final. rewrite _startup_cleared.
  apply (preserves_snd (λ w, wf_bot (self w))).
  - apply preserves_startup_tail;
      auto using settings_pred_wf, wf_hydrate_defaults, wf_hydrate_entities.
  - apply wf_cleared.
Qed.

Lemma startup_separate_dictionaries_witness :
  wf_bot (self (final (startup []) (dollar_world []))).
Proof.
  apply (startup_separate_dictionaries [] (dollar_world [])).
  intros c Hin. by apply elem_of_nil in Hin.
Defined.

Lemma setdefault_subseteq key v d : d ⊆ setdefault key v d.
Proof.
  unfold setdefault. destruct (d !! key) eqn:Hk; [done|].
  by apply insert_subseteq.
Qed.

Lemma DEFAULT_set_DEFAULT_other t t' d b :
  t ≠ t' → DEFAULT t (set_DEFAULT t' d b) = DEFAULT t b.
Proof. by destruct t, t'. Qed.

Lemma defaults_hydrate_defaults t t' row D0 :
  preserves (λ b, D0 ⊆ DEFAULT t b) (hydrate_defaults t' row).
Proof.
  apply preserves_for_each. intros [k v] _. apply preserves_modify.
  intros b Hb. destruct (decide (t = t')) as [->|Hne].
  - rewrite DEFAULT_set_DEFAULT. etrans; [exact Hb|apply setdefault_subseteq].
  - by rewrite DEFAULT_set_DEFAULT_other.
Qed.

Lemma defaults_hydrate_entities t t' rows D0 :
  preserves (λ b, D0 ⊆ DEFAULT t b) (hydrate_entities t' rows).
Proof.
  apply preserves_for_each. intros row _.
  apply preserves_for_each. intros [key v] _. unfold hydrate_item.
  apply preserves_bind; [apply preserves_row_getitem|intros idv].
  apply preserves_bind; [apply preserves_as_entity_id|intros i].
  apply preserves_bind; [|intros l].
  - intros b Hb.
    destruct (cache_getitem_effect t' i b) as (l & b' & -> & _ & Hd & _).
    by rewrite Hd.
  - apply preserves_modify. intros b Hb. by rewrite DEFAULT_set_heap.
Qed.

(** X5. No run of [startup], however it ends, changes or removes a key that
    a Default mapping already has: a default, once set by the constructor
    or by an earlier hydration, is not revised by a later one, whatever the
    sentinel row then holds (extensions being assumed to leave the settings
    alone). *)
Theorem startup_keeps_defaults (cogs : list cog) (w : world) (t : table_kind) :
  (∀ c, c ∈ cogs → keeps_settings (cache_setup_of c)) →
  DEFAULT t (self w) ⊆ DEFAULT t (self (final (startup cogs) w)).
Proof.
  intros Hcogs.
  apply (startup_final (λ w', DEFAULT t (self w) ⊆ DEFAULT t (self w'))).
  { apply (settings_pred_self (λ b, DEFAULT t (self w) ⊆ DEFAULT t b)).
    intros b b' _ _ Hd. by rewrite Hd. }
  unfold final. rewrite _startup_cleared.
  apply (preserves_snd (λ w', DEFAULT t (self w) ⊆ DEFAULT t (self w'))).
  - apply (preserves_startup_tail (λ b, DEFAULT t (self w) ⊆ DEFAULT t b));
      auto using defaults_hydrate_defaults, defaults_hydrate_entities.
    apply (settings_pred_self (λ b, DEFAULT t (self w) ⊆ DEFAULT t b)).
    intros b b' _ _ Hd. by rewrite Hd.
  - by destruct t.
Qed.

Lemma startup_keeps_defaults_witness :
  DEFAULT Guild (self (dollar_world []))
  ⊆ DEFAULT Guild (self (final (startup []) (dollar_world []))).
Proof.
  apply (startup_keeps_defaults [] (dollar_world []) Guild).
  intros c Hin. by apply elem_of_nil in Hin.
Defined.






















(** ** Prefix lookup *)











(** ** Extension names *)

Lemma replace_char_app old new s1 s2 :
  replace_char old new (s1 +:+ s2)
  = replace_char old new s1 +:+ replace_char old new s2.
Proof. induction s1 as [|a s1 IH]; simpl; [done|]. by rewrite IH. Qed.

Lemma replace_char_absent old new s :
  occurs old s = false → replace_char old new s = s.
Proof.
  induction s as [|a s IH]; simpl; [done|]. intros H.
  apply orb_false_iff in H as [Ha Hs]. by rewrite Ha, IH.
Qed.

Lemma substring_0_0 s : String.substring 0 0 s = EmptyString.
Proof. by destruct s. Qed.

Lemma length_string_app s1 s2 :
  String.length (s1 +:+ s2) = (String.length s1 + String.length s2)%nat.
Proof. induction s1 as [|a s1 IH]; simpl; [done|]. by rewrite IH. Qed.

Lemma substring_app_l s1 s2 :
  String.substring 0 (String.length s1) (s1 +:+ s2) = s1.
Proof.
  induction s1 as [|a s1 IH]; simpl; [apply substring_0_0|]. by rewrite IH.
Qed.

Lemma drop_last_app s t : drop_last (String.length t) (s +:+ t) = s.
Proof.
  unfold drop_last. rewrite length_string_app.
  replace (String.length s + String.length t - String.length t)%nat
    with (String.length s) by lia.
  apply substring_app_l.
Qed.

(** The file [cogs/name.py], with either separator, is the module
    [cogs.name]. *)
Lemma extension_name_cog_file sep name :
  sep = slash ∨ sep = backslash →
  occurs slash name = false → occurs backslash name = false →
  extension_name (cog_file sep name) = "cogs." +:+ name.
Proof.
  intros Hsep Hs Hb. unfold extension_name, cog_file.
  change ("cogs" +:+ String sep (name +:+ ".py"))
    with ("cogs" +:+ (String sep EmptyString +:+ (name +:+ ".py"))).
  rewrite !replace_char_app.
  rewrite (replace_char_absent backslash dot name Hb).
  rewrite (replace_char_absent slash dot name Hs).
  assert (replace_char slash dot
            (replace_char backslash dot (String sep EmptyString))
          = String dot EmptyString) as ->.
  { by destruct Hsep as [-> | ->]. }
  change (replace_char slash dot (replace_char backslash dot "cogs"))
    with "cogs".
  change (replace_char slash dot (replace_char backslash dot ".py"))
    with ".py".
  change ("cogs" +:+ (String dot EmptyString +:+ (name +:+ ".py")))
    with (("cogs." +:+ name) +:+ ".py").
  apply (drop_last_app ("cogs." +:+ name) ".py").
Qed.

Lemma client_logger_run lvl msg c :
  client_logger lvl msg c = (Ok tt, on_world (add_log (lvl, msg)) c).
Proof. reflexivity. Qed.

Lemma get_extensions_run pkgs list_str c :
  get_extensions pkgs list_str c
  = (Ok (found_extensions pkgs c),
     on_world (add_log (DEBUG, "Getting all extensions: "
                                 +:+ list_str (found_extensions pkgs c))) c).
Proof. reflexivity. Qed.

(** X9. For the files the pattern [cogs/[!_]*.py] finds, [cogs/NAME.py] or
    [cogs\NAME.py], [get_extensions] returns the module names [cogs.NAME],
    in the order the files were found, followed by [voxelbotutils.cogs.P]
    for every cog [P] of the library; it writes one debug line and changes
    nothing else. *)
Theorem get_extensions_modules (pkgs : list string)
    (list_str : list string → string) (files : list (Ascii.ascii * string))
    (c : client) :
  cog_files c = map (λ f, cog_file (fst f) (snd f)) files →
  (∀ f, f ∈ files →
     (fst f = slash ∨ fst f = backslash) ∧
     occurs slash (snd f) = false ∧ occurs backslash (snd f) = false) →
  ∃ names msg,
    names = map (λ f, "cogs." +:+ snd f) files
            ++ map (λ i, "voxelbotutils.cogs." +:+ i) pkgs ∧
    get_extensions pkgs list_str c
    = (Ok names, on_world (add_log (DEBUG, msg)) c).
Proof.
  intros Hfiles Hok. eexists _, _. split; [reflexivity|].
  rewrite get_extensions_run. unfold found_extensions. rewrite Hfiles.
  assert (map extension_name (map (λ f, cog_file (fst f) (snd f)) files)
          = map (λ f, "cogs." +:+ snd f) files) as ->; [|reflexivity].
  clear Hfiles. induction files as [|f files IH]; simpl; [done|].
  destruct (Hok f) as (Hsep & Hs & Hb); [by left|].
  rewrite extension_name_cog_file by done. f_equal.
  apply IH. intros g Hg. apply Hok. by right.
Qed.

Lemma get_extensions_modules_witness :
  ∃ msg,
    get_extensions ["help"] (λ _, "[...]")
      (sample_client ["cogs/moderation.py"] ∅ ∅ (Some 1) None)
    = (Ok ["cogs.moderation"; "voxelbotutils.cogs.help"],
       on_world (add_log (DEBUG, msg))
         (sample_client ["cogs/moderation.py"] ∅ ∅ (Some 1) None)).
Proof.
  destruct (get_extensions_modules ["help"] (λ _, "[...]")
              [(slash, "moderation")]
              (sample_client ["cogs/moderation.py"] ∅ ∅ (Some 1) None))
    as (names & msg & -> & Hrun).
  - reflexivity.
  - intros f Hf. apply elem_of_cons in Hf as [->|Hf].
    + split; [by left|]. split; reflexivity.
    + by apply elem_of_nil in Hf.
  - exists msg. exact Hrun.
Defined.
